(** * docs-chat: the local development server and the store factory

    A shallow embedding of [scripts/docs-chat/serve.ts] and
    [scripts/docs-chat/rag/store-factory.ts], and the properties of the
    rate limiter, the request validation, the client-address resolution
    and the store selection that the specification states about them.

    Conventions.
    - A JavaScript string is the list of its UTF-16 code units ([list N]);
      [.length] is [length].  Protocol tokens that the code only compares
      with constants (method, url, header names, environment variable
      names and values, file-system paths) are Rocq strings.
    - [Date.now()] is an input: every function that reads the clock takes
      the value read as an argument.
    - Integers ([count], [resetAt], the configured limit and window) are
      [Z]; the configuration values are taken to be integral.
    - Platform functions that are not code of the repository
      ([JSON.parse], the buffer decoding, the retriever, the upstream
      completion call) are the fields of the class [Platform]. *)

From Stdlib Require Import ZArith NArith Lia Ascii String DecimalString.
From stdpp Require Import base option list strings gmap.

Local Open Scope Z_scope.

(** ** JavaScript strings *)

Abbreviation jsstring := (list N).

(** The code units of an ASCII literal. *)
Definition js (s : string) : jsstring :=
  Ascii.N_of_ascii <$> String.list_ascii_of_string s.

(** [WhiteSpace] and [LineTerminator] code points of ECMAScript, the
    ones [String.prototype.trim] strips. *)
Definition isWhiteSpace (c : N) : bool :=
  ((9 <=? c) && (c <=? 13) || (c =? 32) || (c =? 160) || (c =? 5760)
   || (8192 <=? c) && (c <=? 8202) || (c =? 8232) || (c =? 8233)
   || (c =? 8239) || (c =? 8287) || (c =? 12288) || (c =? 65279))%N.

Fixpoint trimStart (s : jsstring) : jsstring :=
  match s with
  | c :: r => if isWhiteSpace c then trimStart r else s
  | [] => []
  end.

Definition trimEnd (s : jsstring) : jsstring := rev (trimStart (rev s)).

(** [s.trim()] *)
Definition trim (s : jsstring) : jsstring := trimEnd (trimStart s).

(** [s.split(sep)] for a separator of one code unit. *)
Fixpoint split (sep : N) (s : jsstring) : list jsstring :=
  match s with
  | [] => [[]]
  | c :: r =>
      if (c =? sep)%N then [] :: split sep r
      else match split sep r with
           | x :: xs => (c :: x) :: xs
           | [] => [[c]]
           end
  end.

Definition comma : N := 44.
Definition newline : N := 10.

(** [xs.join(sep)] *)
Fixpoint join (sep : jsstring) (xs : list jsstring) : jsstring :=
  match xs with
  | [] => []
  | [x] => x
  | x :: rest => x ++ sep ++ join sep rest
  end.

(** [String(n)] for an integer [n]. *)
Definition Number_toString (n : Z) : jsstring :=
  js (NilZero.string_of_int (Z.to_int n)).

(** [Math.ceil(a / d)] for integers [a] and [d > 0]. *)
Definition ceil_div (a d : Z) : Z := - ((- a) / d).

(** ** JSON values *)

(** A number is kept as the decimal [m * 10^e] it was written as; the
    server never computes with a parsed number. *)
#[warnings="-register-all"] Inductive json : Type :=
  | JNull
  | JBool (b : bool)
  | JNum (m e : Z)
  | JStr (s : jsstring)
  | JArr (items : list json)
  | JObj (members : list (jsstring * json)).

(** The value of a property read: [undefined] is [None]. *)
Fixpoint getOwn (key : jsstring) (members : list (jsstring * json)) : option json :=
  match members with
  | [] => None
  | (k, v) :: rest => if decide (k = key) then Some v else getOwn key rest
  end.

(** The result of [v.message]: reading a property of [null] throws, the
    primitives and arrays have no such property, an object has its own or
    none. *)
Inductive access : Type :=
  | Throws
  | Value (v : option json).

Definition getProperty (v : json) (key : jsstring) : access :=
  match v with
  | JNull => Throws
  | JObj members => Value (getOwn key members)
  | _ => Value None
  end.

(** [!v] is false, for [v] a value or [undefined]. *)
Definition truthy (v : option json) : bool :=
  match v with
  | None | Some JNull => false
  | Some (JBool b) => b
  | Some (JNum m _) => negb (m =? 0)
  | Some (JStr s) => negb (bool_decide (s = []))
  | Some (JArr _) | Some (JObj _) => true
  end.

(** [typeof v === "string"] *)
Definition isString (v : option json) : bool :=
  match v with Some (JStr _) => true | _ => false end.

(** ** A reference [JSON.parse]

    The grammar of ECMA-404 over code units.  The server is verified for
    every [Platform]; this parser is the instance the worked examples
    run on. *)
Module JsonText.

Definition isJsonWs (c : N) : bool :=
  ((c =? 32) || (c =? 9) || (c =? 10) || (c =? 13))%N.

Fixpoint skipWs (s : jsstring) : jsstring :=
  match s with
  | c :: r => if isJsonWs c then skipWs r else s
  | [] => []
  end.

Fixpoint expect (lit s : jsstring) : option jsstring :=
  match lit, s with
  | [], _ => Some s
  | c :: lit', d :: r => if (c =? d)%N then expect lit' r else None
  | _ :: _, [] => None
  end.

Definition isDigit (c : N) : bool := ((48 <=? c) && (c <=? 57))%N.

Definition hexValue (c : N) : option N :=
  if isDigit c then Some (c - 48)%N
  else if ((97 <=? c) && (c <=? 102))%N then Some (c - 87)%N
  else if ((65 <=? c) && (c <=? 70))%N then Some (c - 55)%N
  else None.

Definition unescape (c : N) : option N :=
  if (c =? 34)%N then Some 34%N
  else if (c =? 92)%N then Some 92%N
  else if (c =? 47)%N then Some 47%N
  else if (c =? 98)%N then Some 8%N
  else if (c =? 102)%N then Some 12%N
  else if (c =? 110)%N then Some 10%N
  else if (c =? 114)%N then Some 13%N
  else if (c =? 116)%N then Some 9%N
  else None.

(** The characters of a string literal, after its opening quote. *)
Fixpoint parseChars (s acc : jsstring) : option (jsstring * jsstring) :=
  match s with
  | [] => None
  | c :: r =>
      if (c =? 34)%N then Some (rev acc, r)
      else if (c =? 92)%N then
        match r with
        | e :: r1 =>
            if (e =? 117)%N then
              match r1 with
              | h1 :: h2 :: h3 :: h4 :: r2 =>
                  match hexValue h1, hexValue h2, hexValue h3, hexValue h4 with
                  | Some a, Some b, Some c', Some d =>
                      parseChars r2 ((((a * 16 + b) * 16 + c') * 16 + d)%N :: acc)
                  | _, _, _, _ => None
                  end
              | _ => None
              end
            else match unescape e with
                 | Some u => parseChars r1 (u :: acc)
                 | None => None
                 end
        | [] => None
        end
      else if (c <? 32)%N then None
      else parseChars r (c :: acc)
  end.

(** A run of digits: the value accumulated and the number of digits. *)
Fixpoint takeDigits (s : jsstring) (acc n : Z) : Z * Z * jsstring :=
  match s with
  | c :: r =>
      if isDigit c then takeDigits r (10 * acc + Z.of_N (c - 48)) (n + 1)
      else (acc, n, s)
  | [] => (acc, n, [])
  end.

Definition parseInt (s : jsstring) : option (Z * jsstring) :=
  match s with
  | c :: r =>
      if (c =? 48)%N then Some (0, r)
      else if isDigit c then
        let '(m, _, r') := takeDigits s 0 0 in Some (m, r')
      else None
  | [] => None
  end.

Definition parseFrac (m : Z) (s : jsstring) : option (Z * Z * jsstring) :=
  match s with
  | 46%N :: r =>
      let '(m', n, r') := takeDigits r m 0 in
      if n =? 0 then None else Some (m', - n, r')
  | _ => Some (m, 0, s)
  end.

Definition parseExp (s : jsstring) : option (Z * jsstring) :=
  match s with
  | c :: r =>
      if ((c =? 101) || (c =? 69))%N then
        let '(neg, r1) :=
          match r with
          | 45%N :: r1 => (true, r1)
          | 43%N :: r1 => (false, r1)
          | _ => (false, r)
          end in
        let '(x, n, r2) := takeDigits r1 0 0 in
        if n =? 0 then None else Some (if neg then - x else x, r2)
      else Some (0, s)
  | [] => Some (0, [])
  end.

Definition parseNumber (s : jsstring) : option (json * jsstring) :=
  let '(neg, s1) :=
    match s with
    | 45%N :: r => (true, r)
    | _ => (false, s)
    end in
  '(i, s2) ← parseInt s1;
  '(m, e1, s3) ← parseFrac i s2;
  '(e2, s4) ← parseExp s3;
  Some (JNum (if neg then - m else m) (e1 + e2), s4).

(** [defineProperty]: a repeated key keeps its place and takes the
    later value. *)
Fixpoint define (k : jsstring) (v : json) (members : list (jsstring * json))
  : list (jsstring * json) :=
  match members with
  | [] => [(k, v)]
  | (k', v') :: rest =>
      if decide (k' = k) then (k, v) :: rest else (k', v') :: define k v rest
  end.

Fixpoint parseValue (fuel : nat) (s : jsstring) {struct fuel}
  : option (json * jsstring) :=
  match fuel with
  | O => None
  | S fuel' =>
      match skipWs s with
      | [] => None
      | c :: r =>
          if (c =? 123)%N then
            match skipWs r with
            | 125%N :: r' => Some (JObj [], r')
            | _ => parseMembers fuel' r []
            end
          else if (c =? 91)%N then
            match skipWs r with
            | 93%N :: r' => Some (JArr [], r')
            | _ => parseElements fuel' r []
            end
          else if (c =? 34)%N then
            '(str, r') ← parseChars r []; Some (JStr str, r')
          else if (c =? 116)%N then
            r' ← expect (js "rue") r; Some (JBool true, r')
          else if (c =? 102)%N then
            r' ← expect (js "alse") r; Some (JBool false, r')
          else if (c =? 110)%N then
            r' ← expect (js "ull") r; Some (JNull, r')
          else parseNumber (c :: r)
      end
  end
with parseElements (fuel : nat) (s : jsstring) (acc : list json) {struct fuel}
  : option (json * jsstring) :=
  match fuel with
  | O => None
  | S fuel' =>
      '(v, r) ← parseValue fuel' s;
      match skipWs r with
      | 44%N :: r' => parseElements fuel' r' (v :: acc)
      | 93%N :: r' => Some (JArr (rev (v :: acc)), r')
      | _ => None
      end
  end
with parseMembers (fuel : nat) (s : jsstring) (acc : list (jsstring * json))
       {struct fuel} : option (json * jsstring) :=
  match fuel with
  | O => None
  | S fuel' =>
      match skipWs s with
      | 34%N :: r =>
          '(k, r1) ← parseChars r [];
          match skipWs r1 with
          | 58%N :: r2 =>
              '(v, r3) ← parseValue fuel' r2;
              match skipWs r3 with
              | 44%N :: r4 => parseMembers fuel' r4 (define k v acc)
              | 125%N :: r4 => Some (JObj (define k v acc), r4)
              | _ => None
              end
          | _ => None
          end
      | _ => None
      end
  end.

(** [JSON.parse(text)]; [None] stands for the [SyntaxError]. *)
Definition parse (text : jsstring) : option json :=
  '(v, r) ← parseValue (2 * length text + 2) text;
  match skipWs r with
  | [] => Some v
  | _ :: _ => None
  end.

End JsonText.

(** A literal written with ['] for the double quote. *)
Definition jsq (s : string) : jsstring :=
  (λ c, if (c =? 39)%N then 34%N else c) <$> js s.

(** ** Configuration *)

(** [RATE_LIMIT] and [RATE_WINDOW_MS] are read from the environment at
    start-up ([Number(process.env.RATE_LIMIT || 20)]). *)
Class Config : Type := {
  RATE_LIMIT : Z;
  RATE_WINDOW_MS : Z;
}.

Definition MAX_MESSAGE_LENGTH : Z := 2000.
Definition MAX_BODY_SIZE : Z := 8192.

(** ** The rate limiter *)

Record RateRecord : Type := { count : Z; resetAt : Z }.

Module RateCheck.
Record t : Type := { allowed : bool; remaining : Z; resetAt : Z }.
End RateCheck.

(** [checkRateLimit(ip)], with [now] the value of [Date.now()]; the
    second component is [rateLimitStore] after the call. *)
Definition checkRateLimit `{Config} (now : Z) (ip : jsstring)
    (rateLimitStore : gmap jsstring RateRecord)
  : RateCheck.t * gmap jsstring RateRecord :=
  let newWindow :=
    ({| RateCheck.allowed := true;
        RateCheck.remaining := RATE_LIMIT - 1;
        RateCheck.resetAt := now + RATE_WINDOW_MS |},
     <[ip := {| count := 1; resetAt := now + RATE_WINDOW_MS |}]> rateLimitStore) in
  match rateLimitStore !! ip with
  | None => newWindow
  | Some record =>
      if now >? resetAt record then newWindow
      else if count record >=? RATE_LIMIT then
        ({| RateCheck.allowed := false;
            RateCheck.remaining := 0;
            RateCheck.resetAt := resetAt record |},
         rateLimitStore)
      else
        let record' := {| count := count record + 1; resetAt := resetAt record |} in
        ({| RateCheck.allowed := true;
            RateCheck.remaining := RATE_LIMIT - count record';
            RateCheck.resetAt := resetAt record' |},
         <[ip := record']> rateLimitStore)
  end.

(** The periodic clean-up ([setInterval], every [RATE_WINDOW_MS]). *)
Definition sweep (now : Z) (rateLimitStore : gmap jsstring RateRecord)
  : gmap jsstring RateRecord :=
  filter (λ entry, ¬ (now > resetAt entry.2)) rateLimitStore.

(** ** Requests *)

Inductive header_value : Type :=
  | HdrString (s : jsstring)
  | HdrArray (l : list jsstring).

Record IncomingMessage : Type := {
  method : string;
  url : string;
  headers : gmap string header_value;
  remoteAddress : option jsstring;       (* req.socket.remoteAddress *)
  chunks : list (list Byte.byte);        (* what [for await (chunk of req)] yields *)
}.

(** [getClientIP(req)] *)
Definition getClientIP (req : IncomingMessage) : jsstring :=
  match headers req !! "x-forwarded-for" with
  | Some (HdrString forwarded) => trim (default [] (split comma forwarded !! 0%nat))
  | _ =>
      match headers req !! "x-real-ip" with
      | Some (HdrString realIp) => trim realIp
      | _ =>
          match remoteAddress req with
          | Some (c :: a) => c :: a
          | Some [] | None => js "unknown"
          end
      end
  end.

(** ** Responses *)

Inductive hval : Type :=
  | HNum (n : Z)
  | HStr (s : string).

(** What is written to the response: text, or [JSON.stringify(v)]. *)
Inductive payload : Type :=
  | Text (s : jsstring)
  | Stringify (v : json).

Record ServerResponse : Type := {
  res_headers : gmap string hval;            (* set by [setHeader] *)
  res_head : option (Z * gmap string hval);  (* status and headers sent by [writeHead] *)
  res_body : list payload;                   (* [write] and [end] data, in order *)
  res_ended : bool;
}.

Definition newResponse : ServerResponse :=
  {| res_headers := ∅; res_head := None; res_body := []; res_ended := false |}.

(** ** The retrieval interface *)

Module Rag.
(** The fields of a chunk the server reads. *)
Record DocsChunk : Type := { title : jsstring; url : jsstring; content : jsstring }.
Record SearchResult : Type := { chunk : DocsChunk }.
End Rag.

(** ** The platform *)

(** [streamOpenAI] is taken by its effect on the handler: the tokens it
    hands to [onToken], and whether it then returns ([true]) or throws. *)
Class Platform : Type := {
  Buffer_toString : list Byte.byte → jsstring;
  JSON_parse : jsstring → option json;
  retriever_retrieve : jsstring → Z → option (list Rag.SearchResult);
  streamOpenAI : jsstring → jsstring → list jsstring * bool;
  store_count : option Z;
}.

(** ** The handler monad: state, a log of platform calls, rejection *)

Inductive Call : Type :=
  | ReadChunk (chunk : list Byte.byte)
  | ParseJson (text : jsstring)
  | Retrieve (query : jsstring) (limit : Z)
  | StreamOpenAI (systemPrompt userMessage : jsstring)
  | StoreCount.

Record World : Type := {
  rateLimitStore : gmap jsstring RateRecord;
  res : ServerResponse;
  calls : list Call;
}.

Inductive completion (A : Type) : Type :=
  | Fulfilled (a : A)
  | Rejected.
Arguments Fulfilled {A} a.
Arguments Rejected {A}.

Definition M (A : Type) : Type := World → completion A * World.

#[global] Instance M_ret : MRet M := λ A a w, (Fulfilled a, w).
#[global] Instance M_bind : MBind M := λ A B f m w,
  match m w with
  | (Fulfilled a, w') => f a w'
  | (Rejected, w') => (Rejected, w')
  end.

Definition reject {A : Type} : M A := λ w, (Rejected, w).

Definition call (c : Call) : M unit := λ w,
  (Fulfilled (),
   {| rateLimitStore := rateLimitStore w; res := res w; calls := calls w ++ [c] |}).

Definition withResponse (f : ServerResponse → ServerResponse) : M unit := λ w,
  (Fulfilled (),
   {| rateLimitStore := rateLimitStore w; res := f (res w); calls := calls w |}).

Definition withStore {A : Type}
    (f : gmap jsstring RateRecord → A * gmap jsstring RateRecord) : M A := λ w,
  let '(a, store) := f (rateLimitStore w) in
  (Fulfilled a, {| rateLimitStore := store; res := res w; calls := calls w |}).

(** [res.setHeader(name, value)] *)
Definition setHeader (name : string) (value : hval) : M unit :=
  withResponse (λ r,
    {| res_headers := <[name := value]> (res_headers r); res_head := res_head r;
       res_body := res_body r; res_ended := res_ended r |}).

(** [res.writeHead(status, hdrs)]: the headers sent are [hdrs] merged over
    the ones set before. *)
Definition writeHead (status : Z) (hdrs : gmap string hval) : M unit :=
  withResponse (λ r,
    {| res_headers := res_headers r; res_head := Some (status, hdrs ∪ res_headers r);
       res_body := res_body r; res_ended := res_ended r |}).

(** [res.write(data)] *)
Definition write (data : payload) : M unit :=
  withResponse (λ r,
    {| res_headers := res_headers r; res_head := res_head r;
       res_body := res_body r ++ [data]; res_ended := res_ended r |}).

(** [res.end(data)] and [res.end()] *)
Definition end_ (data : option payload) : M unit :=
  withResponse (λ r,
    {| res_headers := res_headers r; res_head := res_head r;
       res_body := res_body r ++ option_list data; res_ended := true |}).

(** ** serve.ts *)

Definition corsHeaders : gmap string hval :=
  <["Access-Control-Allow-Origin" := HStr "*"]>
  (<["Access-Control-Allow-Methods" := HStr "GET, POST, OPTIONS"]>
  (<["Access-Control-Allow-Headers" := HStr "Content-Type"]> ∅)).

Definition sendJson (status : Z) (body : list (jsstring * json)) : M unit :=
  writeHead status (<["Content-Type" := HStr "application/json"]> corsHeaders);;
  end_ (Some (Stringify (JObj body))).

Definition errorBody (text : jsstring) : list (jsstring * json) :=
  [(js "error", JStr text)].

Definition apology : jsstring :=
  js "I couldn't find relevant documentation excerpts for that question. Try rephrasing or search the docs.".

Definition excerpt (result : Rag.SearchResult) : jsstring :=
  let c := Rag.chunk result in
  js "[" ++ Rag.title c ++ js "](" ++ Rag.url c ++ js ")" ++ [newline]
  ++ take 1200 (Rag.content c).

Definition systemPromptFor (results : list Rag.SearchResult) : jsstring :=
  js "You are a helpful assistant for OpenClaw documentation. "
  ++ js "Answer only from the provided documentation excerpts. "
  ++ js "If the answer is not in the excerpts, say so and suggest checking the docs. "
  ++ js "Cite sources by name or URL when relevant." ++ [newline; newline]
  ++ js "Documentation excerpts:" ++ [newline]
  ++ join ([newline; newline] ++ js "---" ++ [newline; newline]) (excerpt <$> results).

Definition stringOf (v : option json) : jsstring :=
  match v with Some (JStr s) => s | _ => [] end.

Section Server.
Context `{Config} `{Platform}.

(** The reading loop of [handleChat]: [Some body] when the request is
    read to its end, [None] when the size limit stopped it (the 413 is
    then sent). *)
Fixpoint readBody (pending : list (list Byte.byte)) (body : jsstring) (bodySize : Z)
  : M (option jsstring) :=
  match pending with
  | [] => mret (Some body)
  | chunk :: rest =>
      call (ReadChunk chunk);;
      let bodySize := bodySize + Z.of_nat (length chunk) in
      if bodySize >? MAX_BODY_SIZE then
        sendJson 413 (errorBody (js "Request too large"));; mret None
      else readBody rest (body ++ Buffer_toString chunk) bodySize
  end.

(** [handleChat(req, res)], from the retrieval on: the answer to a
    validated [message]. *)
Definition reply (message : jsstring) : M unit :=
  call (Retrieve message 8);;
  match retriever_retrieve message 8 with
  | None => reject
  | Some [] =>
      writeHead 200
        (<["Content-Type" := HStr "text/plain; charset=utf-8"]> corsHeaders);;
      end_ (Some (Text apology))
  | Some results =>
      let systemPrompt := systemPromptFor results in
      writeHead 200
        (<["Transfer-Encoding" := HStr "chunked"]>
         (<["Content-Type" := HStr "text/plain; charset=utf-8"]> corsHeaders));;
      call (StreamOpenAI systemPrompt message);;
      let '(tokens, ok) := streamOpenAI systemPrompt message in
      mapM (λ token, write (Text token)) tokens;;
      if ok then end_ None
      else end_ (Some (Text ([newline; newline] ++ js "[Error contacting OpenAI]")))
  end.

(** [handleChat(req, res)], from the parsing of the body that was read
    to the validated message. *)
Definition answer (body : jsstring) : M unit :=
  let text := match body with [] => js "{}" | _ :: _ => body end in
  call (ParseJson text);;
  match JSON_parse text with
  | None => sendJson 400 (errorBody (js "Invalid JSON"))
  | Some parsed =>
      match getProperty parsed (js "message") with
      | Throws => sendJson 400 (errorBody (js "Invalid JSON"))
      | Value message =>
          if negb (truthy message) || negb (isString message) then
            sendJson 400 (errorBody (js "message required"))
          else
            let trimmedMessage := trim (stringOf message) in
            if bool_decide (trimmedMessage = []) then
              sendJson 400 (errorBody (js "message required"))
            else if Z.of_nat (length trimmedMessage) >? MAX_MESSAGE_LENGTH then
              sendJson 400 (errorBody
                (js "Message too long (max " ++ Number_toString MAX_MESSAGE_LENGTH
                 ++ js " characters)"))
            else reply trimmedMessage
      end
  end.

Definition handleChat (req : IncomingMessage) : M unit :=
  body ← readBody (chunks req) [] 0;
  match body with
  | None => mret ()
  | Some body => answer body
  end.

(** The request listener; [now] is the clock read by [checkRateLimit],
    [now'] the clock read for [Retry-After]. *)
Definition server (now now' : Z) (req : IncomingMessage) : M unit :=
  if bool_decide (method req = "OPTIONS") then
    writeHead 204 corsHeaders;; end_ None
  else if bool_decide (method req = "GET")
          && (bool_decide (url req = "/") || bool_decide (url req = "/health")) then
    call StoreCount;;
    match store_count with
    | None => reject
    | Some n =>
        sendJson 200 [(js "ok", JBool true); (js "chunks", JNum n 0);
                      (js "mode", JStr (js "vector"))]
    end
  else if bool_decide (method req = "POST") && bool_decide (url req = "/chat") then
    let clientIP := getClientIP req in
    rateCheck ← withStore (checkRateLimit now clientIP);
    setHeader "X-RateLimit-Limit" (HNum RATE_LIMIT);;
    setHeader "X-RateLimit-Remaining" (HNum (Z.max 0 (RateCheck.remaining rateCheck)));;
    setHeader "X-RateLimit-Reset" (HNum (ceil_div (RateCheck.resetAt rateCheck) 1000));;
    if negb (RateCheck.allowed rateCheck) then
      let retryAfter := ceil_div (RateCheck.resetAt rateCheck - now') 1000 in
      setHeader "Retry-After" (HNum retryAfter);;
      sendJson 429
        [(js "error", JStr (js "Too many requests. Please wait before trying again."));
         (js "retryAfter", JNum retryAfter 0)]
    else handleChat req
  else sendJson 404 (errorBody (js "Not found")).

(** One request served against the rate-limit store [store]. *)
Definition serve (now now' : Z) (req : IncomingMessage)
    (store : gmap jsstring RateRecord) : completion unit * World :=
  server now now' req {| rateLimitStore := store; res := newResponse; calls := [] |}.

End Server.

(** ** File-system paths and the environment *)

(** A directory is the list of its segments below the root; a path handed
    to a store is the string. *)
Definition render (segments : list string) : string :=
  foldr (λ seg rest, "/" +:+ seg +:+ rest) "" segments.

(** [path.resolve(dir, rel)] and [path.join(dir, rel)] for an absolute,
    normalised [dir], with [rel] given by its segments. *)
Definition path_resolve (dir rel : list string) : list string :=
  foldl (λ acc seg,
           if bool_decide (seg = "..") then removelast acc
           else if bool_decide (seg = ".") then acc
           else acc ++ [seg]) dir rel.

(** [process.env]; a variable that is not set reads [undefined]. *)
Abbreviation Env := (gmap string string).

(** Truthiness of [string | undefined]. *)
Definition isSet (v : option string) : bool :=
  match v with
  | Some s => negb (bool_decide (s = ""))
  | None => false
  end.

(** [a && b] and [a || b] on [string | undefined]. *)
Definition js_and (a b : option string) : option string := if isSet a then b else a.
Definition js_or (a b : option string) : option string := if isSet a then a else b.

(** The stores of [./store.js] (constructed with a path and a vector
    dimension) and [./store-upstash.js] (constructed with no argument). *)
Inductive DocsStore : Type :=
  | LanceDocsStore (dbPath : string) (dimensions : Z)
  | UpstashDocsStore.

(** ** rag/store-factory.ts *)
Module StoreFactory.

Inductive StoreMode : Type := upstash | lancedb.

Section Factory.
(** The directory of [scripts/docs-chat]; the factory is the file
    [rag/store-factory.ts] below it. *)
Variable root : list string.

Definition __dirname : list string := root ++ ["rag"].
Definition DEFAULT_LANCEDB_PATH : string :=
  render (path_resolve __dirname [".."; ".lancedb"]).
Definition VECTOR_DIM : Z := 3072.

Definition detectStoreMode (env : Env) : StoreMode :=
  let hasUpstash :=
    js_and (env !! "UPSTASH_VECTOR_REST_URL") (env !! "UPSTASH_VECTOR_REST_TOKEN") in
  if isSet hasUpstash then upstash else lancedb.

Definition createStore (mode : option StoreMode) (lancedbPath : option string)
    (env : Env) : DocsStore * StoreMode :=
  let selectedMode := default (detectStoreMode env) mode in
  match selectedMode with
  | upstash => (UpstashDocsStore, upstash)
  | lancedb =>
      let dbPath := default DEFAULT_LANCEDB_PATH lancedbPath in
      (LanceDocsStore dbPath VECTOR_DIM, lancedb)
  end.
End Factory.

End StoreFactory.

(** ** serve.ts: start-up *)
Module Startup.

(** Modelled from the spec: the class [Embeddings] of
    [rag/embeddings.ts] is not among the sources; the specification
    gives its [dimensions] as the constant 3072. *)
Definition embeddings_dimensions : Z := 3072.

Section Main.
(** The directory of [scripts/docs-chat], where [serve.ts] is. *)
Variable root : list string.

Definition __dirname : list string := root.
Definition defaultDbPath : string := render (path_resolve __dirname [".lance-db"]).

Definition dbPath (env : Env) : string :=
  default defaultDbPath (js_or (env !! "DOCS_CHAT_DB") (Some defaultDbPath)).

(** The store the server runs on; [None] when start-up stops for want
    of [OPENAI_API_KEY]. *)
Definition store (env : Env) : option DocsStore :=
  if isSet (env !! "OPENAI_API_KEY")
  then Some (LanceDocsStore (dbPath env) embeddings_dimensions)
  else None.
End Main.

End Startup.

(** ** Histories of the running server *)

Inductive event : Type :=
  | Incoming (now now' : Z) (req : IncomingMessage)
  | Sweep (now : Z).

Definition step `{Config} `{Platform}
    (store : gmap jsstring RateRecord) (e : event) : gmap jsstring RateRecord :=
  match e with
  | Incoming now now' req => rateLimitStore (serve now now' req store).2
  | Sweep now => sweep now store
  end.

Definition run `{Config} `{Platform}
    (history : list event) (store : gmap jsstring RateRecord) : gmap jsstring RateRecord :=
  foldl step store history.

(** A [POST /chat] request of the client [ip]. *)
Definition isChat (req : IncomingMessage) : bool :=
  bool_decide (method req = "POST") && bool_decide (url req = "/chat").

Definition chatOf (ip : jsstring) (e : event) : bool :=
  match e with
  | Incoming _ _ req => isChat req && bool_decide (getClientIP req = ip)
  | Sweep _ => false
  end.

(** ** Worked instances *)

(** Decoding of a chunk of 7-bit text. *)
Definition decode7 (chunk : list Byte.byte) : jsstring := Byte.to_N <$> chunk.

Definition bytes (s : string) : list Byte.byte := list_byte_of_string s.

(** The bytes of a literal written with ['] for the double quote. *)
Definition bytesq (s : string) : list Byte.byte :=
  (λ b, match b with Byte.x27 => Byte.x22 | _ => b end) <$> bytes s.

Definition demoPlatform (results : option (list Rag.SearchResult)) : Platform :=
  {| Buffer_toString := decode7;
     JSON_parse := JsonText.parse;
     retriever_retrieve := λ _ _, results;
     streamOpenAI := λ _ _, ([js "Use "; js "the gateway."], true);
     store_count := Some 3 |}.

Definition limit (n : Z) : Config := {| RATE_LIMIT := n; RATE_WINDOW_MS := 60000 |}.

Definition post (hdrs : gmap string header_value) (body : list (list Byte.byte))
  : IncomingMessage :=
  {| method := "POST"; url := "/chat"; headers := hdrs;
     remoteAddress := Some (js "127.0.0.1"); chunks := body |}.

Definition status (o : completion unit * World) : option Z :=
  fst <$> res_head (res o.2).

Definition sentHeaders (o : completion unit * World) : gmap string hval :=
  from_option snd ∅ (res_head (res o.2)).

(** A world with no record and nothing sent. *)
Definition idle : World :=
  {| rateLimitStore := ∅; res := newResponse; calls := [] |}.


(** ** serve.ts: [streamOpenAI]

    The upstream call in full.  The request is answered by the platform;
    what the function does with the answer is modelled here: the check of
    the response, the assembly of lines across chunks, the reading of
    the [data:] lines.  The result is the list of values handed to
    [onToken], in order, and whether the function returns ([true]) or
    throws.  A number counts as 0 when its decimal is zero; a decimal too
    small for a double, which JavaScript reads as 0, is outside the
    model. *)
Module OpenAI.

(** What [fetch] and the body of the response give: [fetch] rejects; the
    response is not [ok] or has no body; or the body yields chunks, given
    by the text [decoder.decode(chunk, { stream: true })] returns for
    each, and then ends, or breaks with an exception ([breaks]). *)
Inductive Upstream : Type :=
  | FetchRejects
  | Refused (status : Z) (errorText : jsstring)
  | Streams (pieces : list jsstring) (breaks : bool).

(** [s.startsWith(prefix)] *)
Definition startsWith (prefix s : jsstring) : bool :=
  bool_decide (take (length prefix) s = prefix).

(** [v?.[0]] *)
Definition first (v : option json) : option json :=
  match v with
  | Some (JArr items) => head items
  | Some (JObj members) => getOwn (js "0") members
  | Some (JStr (c :: _)) => Some (JStr [c])
  | _ => None
  end.

(** [v?.key], for a [key] that is no index and not [length]. *)
Definition member (key : jsstring) (v : option json) : option json :=
  match v with
  | Some (JObj members) => getOwn key members
  | _ => None
  end.

(** What one line of the stream amounts to. *)
Inductive line : Type :=
  | Ignored
  | Done
  | Delta (v : json).

Section Lines.
Variable JSON_parse : jsstring → option json.

(** The body of the loop over the lines. *)
Definition readLine (text : jsstring) : line :=
  let trimmed := trim text in
  if negb (startsWith (js "data:") trimmed) then Ignored
  else
    let data := trim (drop 5 trimmed) in
    if bool_decide (data = js "[DONE]") then Done
    else
      match JSON_parse data with
      | None => Ignored
      | Some json =>
          match getProperty json (js "choices") with
          | Throws => Ignored
          | Value choices =>
              let delta := member (js "content") (member (js "delta") (first choices)) in
              match delta with
              | Some v => if truthy delta then Delta v else Ignored
              | None => Ignored
              end
          end
      end.

(** The loop over the lines of one chunk: the values handed to
    [onToken], and whether [[DONE]] was met. *)
Fixpoint readLines (lines : list jsstring) : list json * bool :=
  match lines with
  | [] => ([], false)
  | text :: rest =>
      match readLine text with
      | Done => ([], true)
      | Ignored => readLines rest
      | Delta v => let '(vs, done) := readLines rest in (v :: vs, done)
      end
  end.

(** The loop over the chunks, with the text kept from the chunks
    before. *)
Fixpoint readChunks (pieces : list jsstring) (buffer : jsstring) : list json * bool :=
  match pieces with
  | [] => ([], false)
  | piece :: rest =>
      let buffer := buffer ++ piece in
      let lines := split newline buffer in
      let buffer := default [] (last lines) in
      let lines := removelast lines in
      let '(vs, done) := readLines lines in
      if done then (vs, true)
      else let '(ws, done') := readChunks rest buffer in (vs ++ ws, done')
  end.

(** [streamOpenAI(systemPrompt, userMessage, onToken)] on the answer
    [upstream] to its request. *)
Definition streamOpenAI (upstream : Upstream) : list json * bool :=
  match upstream with
  | FetchRejects | Refused _ _ => ([], false)
  | Streams pieces breaks =>
      let '(vs, done) := readChunks pieces [] in
      (vs, done || negb breaks)
  end.

End Lines.

End OpenAI.


(** * Properties *)

(** ** Vocabulary of the statements *)

(** No record, or one whose window is over at [now]. *)
Definition fresh (now : Z) (ip : jsstring) (store : gmap jsstring RateRecord) : Prop :=
  match store !! ip with
  | None => True
  | Some record => now > resetAt record
  end.

(** The header sets of the replies of [handleChat]. *)
Definition jsonHeaders : gmap string hval :=
  <["Content-Type" := HStr "application/json"]> corsHeaders.
Definition textHeaders : gmap string hval :=
  <["Content-Type" := HStr "text/plain; charset=utf-8"]> corsHeaders.
Definition streamHeaders : gmap string hval :=
  <["Transfer-Encoding" := HStr "chunked"]> textHeaders.

(** The heads [handleChat] writes: status and headers given to
    [writeHead]. *)
Definition replies : list (Z * gmap string hval) :=
  [(200, textHeaders); (200, streamHeaders); (400, jsonHeaders); (413, jsonHeaders)].

(** What [handleChat] may do to the world: extend the log, write the
    response; the head, once written, is one of [replies] merged over the
    headers set before.  It never touches the rate-limit store or the
    headers set. *)
Record stable (w w' : World) : Prop := {
  stable_store : rateLimitStore w' = rateLimitStore w;
  stable_headers : res_headers (res w') = res_headers (res w);
  stable_head :
    res_head (res w') = res_head (res w)
    ∨ ∃ st hs, (st, hs) ∈ replies
               ∧ res_head (res w') = Some (st, hs ∪ res_headers (res w));
}.

Definition preserves {A : Type} (m : M A) : Prop := ∀ w, stable w (m w).2.

(** The three headers the listener sets from the limiter's answer. *)
Definition rateHeaders `{Config} (rc : RateCheck.t) : gmap string hval :=
  <["X-RateLimit-Reset" := HNum (ceil_div (RateCheck.resetAt rc) 1000)]>
  (<["X-RateLimit-Remaining" := HNum (Z.max 0 (RateCheck.remaining rc))]>
  (<["X-RateLimit-Limit" := HNum RATE_LIMIT]> ∅)).

(** The world [handleChat] starts in, for a request the limiter let
    through with answer [rc], leaving the store [store]. *)
Definition letThrough `{Config} (rc : RateCheck.t) (store : gmap jsstring RateRecord)
  : World :=
  {| rateLimitStore := store;
     res := {| res_headers := rateHeaders rc; res_head := None;
               res_body := []; res_ended := false |};
     calls := [] |}.

(** The response to a request over the limit: status 429, [Retry-After],
    and the JSON error body. *)
Definition tooManyRequests `{Config} (rc : RateCheck.t) (now' : Z) : ServerResponse :=
  let retryAfter := ceil_div (RateCheck.resetAt rc - now') 1000 in
  let set := <["Retry-After" := HNum retryAfter]> (rateHeaders rc) in
  {| res_headers := set;
     res_head := Some (429, <["Content-Type" := HStr "application/json"]> corsHeaders ∪ set);
     res_body :=
       [Stringify (JObj
          [(js "error", JStr (js "Too many requests. Please wait before trying again."));
           (js "retryAfter", JNum retryAfter 0)])];
     res_ended := true |}.

(** The event is no request of [ip] later than [limit], and no sweep
    later than [limit]. *)
Definition inWindow (ip : jsstring) (limit : Z) (e : event) : bool :=
  match e with
  | Incoming now _ _ => implb (chatOf ip e) (now <=? limit)
  | Sweep now => now <=? limit
  end.

(** The number of [POST /chat] requests of [ip] in a history. *)
Definition requestsOf (ip : jsstring) (history : list event) : Z :=
  Z.of_nat (length (filter (λ e, chatOf ip e = true) history)).

(** The world after the platform calls [cs] are logged. *)
Definition logged (cs : list Call) (w : World) : World :=
  {| rateLimitStore := rateLimitStore w; res := res w; calls := calls w ++ cs |}.

(** The world after a reply: [writeHead st hs], the data [body] written,
    and the response ended. *)
Definition replied (st : Z) (hs : gmap string hval) (body : list payload) (w : World)
  : World :=
  {| rateLimitStore := rateLimitStore w;
     res := {| res_headers := res_headers (res w);
               res_head := Some (st, hs ∪ res_headers (res w));
               res_body := res_body (res w) ++ body;
               res_ended := true |};
     calls := calls w |}.

(** The size of a request body in bytes, and the text [handleChat]
    accumulates from it. *)
Definition chunkBytes (pending : list (list Byte.byte)) : Z :=
  Z.of_nat (length (concat pending)).

Definition bodyBytes (req : IncomingMessage) : Z := chunkBytes (chunks req).

Definition bodyText `{Platform} (req : IncomingMessage) : jsstring :=
  concat (Buffer_toString <$> chunks req).

(** The [message] member of a parsed body, when the body is an object
    that has one. *)
Definition messageOf (v : json) : option json :=
  match v with
  | JObj members => getOwn (js "message") members
  | _ => None
  end.

(** The body text is not valid JSON, or its [message] is absent or not a
    string, or empty after trimming, or longer than 2000 after
    trimming. *)
Definition badRequest `{Platform} (text : jsstring) : Prop :=
  match JSON_parse text with
  | None => True
  | Some v =>
      match messageOf v with
      | Some (JStr m) => trim m = [] ∨ 2000 < Z.of_nat (length (trim m))
      | _ => True
      end
  end.

(** The body text is JSON whose [message] is a string that trims to [m],
    of length 1 to 2000. *)
Definition validRequest `{Platform} (text m : jsstring) : Prop :=
  ∃ v m', JSON_parse text = Some v ∧ messageOf v = Some (JStr m')
          ∧ trim m' = m ∧ 1 ≤ Z.of_nat (length m) ≤ 2000.

(** What the streaming branch writes: the tokens of the completion, then
    the error marker when the upstream call failed. *)
Definition streamed `{Platform} (results : list Rag.SearchResult) (message : jsstring)
  : list payload :=
  let '(tokens, ok) := streamOpenAI (systemPromptFor results) message in
  (Text <$> tokens)
  ++ (if ok then []
      else [Text ([newline; newline] ++ js "[Error contacting OpenAI]")]).

(** The text [handleChat] gives to [JSON.parse]: [body || "{}"]. *)
Definition parsedText (body : jsstring) : jsstring :=
  match body with [] => js "{}" | _ :: _ => body end.

(** A reply of [sendJson] with the body [{ error }]. *)
Definition errorReply (st : Z) (error : jsstring) (w : World) : World :=
  replied st jsonHeaders [Stringify (JObj (errorBody error))] w.

(** The text before the first comma of [s]; all of [s] when it has none. *)
Fixpoint firstAddress (s : jsstring) : jsstring :=
  match s with
  | [] => []
  | c :: r => if (c =? comma)%N then [] else c :: firstAddress r
  end.

(** The client address as the specification orders its sources: the
    first of the candidates that is present, the literal [unknown] when
    none is. *)
Definition headerString (req : IncomingMessage) (name : string) : option jsstring :=
  match headers req !! name with
  | Some (HdrString s) => Some s
  | _ => None
  end.

Definition socketAddress (req : IncomingMessage) : option jsstring :=
  match remoteAddress req with
  | Some [] => None
  | a => a
  end.

Definition resolveClientIP (req : IncomingMessage) : jsstring :=
  default (js "unknown")
    (((λ s, trim (firstAddress s)) <$> headerString req "x-forwarded-for")
     ∪ (trim <$> headerString req "x-real-ip")
     ∪ socketAddress req).

(** An environment variable is present, and is set to a non-empty
    value. *)
Definition present (env : Env) (name : string) : Prop := is_Some (env !! name).

Definition nonEmpty (env : Env) (name : string) : Prop :=
  ∃ value, env !! name = Some value ∧ value ≠ "".


(** ** Vocabulary of the further properties *)



(** Two worlds that differ in the rate-limit store at most. *)
Definition sameResponse (w w' : World) : Prop :=
  res w = res w' ∧ calls w = calls w'.

(** A handler that neither reads nor depends on the rate-limit store. *)
Definition storeBlind {A : Type} (m : M A) : Prop :=
  ∀ w w', sameResponse w w' → (m w).1 = (m w').1 ∧ sameResponse (m w).2 (m w').2.

(** What a client sees of a request: whether the listener returned, the
    response, and the platform calls made for it. *)
Definition observed (o : completion unit * World) : completion unit * ServerResponse * list Call :=
  (o.1, res o.2, calls o.2).

(** The routes of the listener. *)
Definition isOptions (req : IncomingMessage) : bool := bool_decide (method req = "OPTIONS").

Definition isHealth (req : IncomingMessage) : bool :=
  bool_decide (method req = "GET")
  && (bool_decide (url req = "/") || bool_decide (url req = "/health")).

(** The error text of a bad request: [Invalid JSON] for a text that does
    not parse or parses to [null], the limit for a message that is too
    long, [message required] in every other case. *)
Definition errorFor `{Platform} (text : jsstring) : jsstring :=
  match JSON_parse text with
  | None | Some JNull => js "Invalid JSON"
  | Some v =>
      match messageOf v with
      | Some (JStr m) =>
          if bool_decide (trim m = []) then js "message required"
          else js "Message too long (max 2000 characters)"
      | _ => js "message required"
      end
  end.

(** The platform calls of [handleChat] after the reading of the body, for
    a body text [text]: one parse; for a valid message one retrieval;
    after a retrieval with results one upstream call. *)
Definition callsAfterReading `{Platform} (text : jsstring) (tail : list Call) : Prop :=
  (badRequest text ∧ tail = [ParseJson text])
  ∨ ∃ m, validRequest text m
         ∧ match retriever_retrieve m 8 with
           | None | Some [] => tail = [ParseJson text; Retrieve m 8]
           | Some results =>
               tail = [ParseJson text; Retrieve m 8;
                       StreamOpenAI (systemPromptFor results) m]
           end.

(** The lines of a text that are ended by a line feed: all the pieces of
    [text.split("\n")] but the last. *)
Definition completeLines (text : jsstring) : list jsstring :=
  removelast (split newline text).

(** A text with no white space at either end. *)
Definition trimmed (s : jsstring) : Prop :=
  (∀ c, head s = Some c → isWhiteSpace c = false)
  ∧ (∀ c, last s = Some c → isWhiteSpace c = false).

(** A text of white space only. *)
Definition blank (s : jsstring) : Prop := ∀ c, c ∈ s → isWhiteSpace c = true.

(** What the clients see along a history: the observation of every
    request, in order. *)
Fixpoint responses `{Config} `{Platform} (history : list event)
    (store : gmap jsstring RateRecord)
  : list (completion unit * ServerResponse * list Call) :=
  match history with
  | [] => []
  | Incoming now now' req :: rest =>
      observed (serve now now' req store)
      :: responses rest (step store (Incoming now now' req))
  | Sweep now :: rest => responses rest (step store (Sweep now))
  end.

(** The time of an event, as read by the limiter or the sweep. *)
Definition timeOf (e : event) : Z :=
  match e with
  | Incoming now _ _ => now
  | Sweep now => now
  end.

(** The clock does not run backwards along the history, from [t] on. *)
Fixpoint ordered (t : Z) (history : list event) : Prop :=
  match history with
  | [] => True
  | e :: rest => t ≤ timeOf e ∧ ordered (timeOf e) rest
  end.

Definition isRequest (e : event) : bool :=
  match e with
  | Incoming _ _ _ => true
  | Sweep _ => false
  end.

(** Two stores that hold the same records among those still live at
    [t]. *)
Definition agreeFrom (t : Z) (store store' : gmap jsstring RateRecord) : Prop :=
  ∀ ip record, t ≤ resetAt record →
    (store !! ip = Some record ↔ store' !! ip = Some record).

(** ** Further worked instances *)

Definition gatewayDoc : Rag.SearchResult :=
  {| Rag.chunk :=
       {| Rag.title := js "Gateway";
          Rag.url := js "https://docs.openclaw.ai/gateway";
          Rag.content := js "Configure the gateway in openclaw.json." |} |}.

(** A chunk whose content is 1200 letters and then [ending]. *)
Definition longDoc (ending : string) : Rag.SearchResult :=
  {| Rag.chunk :=
       {| Rag.title := js "Long";
          Rag.url := js "https://docs.openclaw.ai/long";
          Rag.content := replicate 1200 97%N ++ js ending |} |}.

(** A line of the upstream stream carrying the token [token]. *)
Definition deltaLine (token : string) : jsstring :=
  jsq "data: {'choices':[{'delta':{'content':'" ++ js token ++ jsq "'}}]}".

(** A stream of two tokens, a comment, an empty delta, [[DONE]] and a
    late token, cut in the middle of the second line. *)
Definition streamHead : jsstring :=
  deltaLine "Hel" ++ [newline] ++ jsq "data: {'choices':[{'delta':{'con".

Definition streamRest : jsstring :=
  jsq "tent':'lo'}}]}" ++ [newline; newline] ++ js ": ping" ++ [newline]
  ++ jsq "data: {'choices':[{'delta':{}}]}" ++ [newline]
  ++ js "data: [DONE]" ++ [newline] ++ deltaLine "late" ++ [newline].

Definition askGateway : IncomingMessage :=
  post ∅ [bytesq "{'message': ' How do I configure the gateway? '}"].

Definition spent : gmap jsstring RateRecord :=
  {[ js "127.0.0.1" := {| count := 1; resetAt := 61000 |} ]}.


(** ** The rate limiter *)

Section RateLimiter.
Context `{Config}.
Implicit Types (store : gmap jsstring RateRecord) (ip : jsstring) (now : Z).

Lemma checkRateLimit_fresh now ip store :
  fresh now ip store →
  checkRateLimit now ip store =
    ({| RateCheck.allowed := true;
        RateCheck.remaining := RATE_LIMIT - 1;
        RateCheck.resetAt := now + RATE_WINDOW_MS |},
     <[ip := {| count := 1; resetAt := now + RATE_WINDOW_MS |}]> store).
Proof.
  unfold fresh, checkRateLimit. destruct (store !! ip) as [record|]; [|done].
  intros Hover. by rewrite (proj2 (Z.gtb_lt _ _)) by lia.
Qed.

Lemma checkRateLimit_open now ip store record :
  store !! ip = Some record → now ≤ resetAt record → count record < RATE_LIMIT →
  checkRateLimit now ip store =
    ({| RateCheck.allowed := true;
        RateCheck.remaining := RATE_LIMIT - (count record + 1);
        RateCheck.resetAt := resetAt record |},
     <[ip := {| count := count record + 1; resetAt := resetAt record |}]> store).
Proof.
  intros Hrec Hin Hlt. unfold checkRateLimit. rewrite Hrec.
  destruct (Z.gtb_spec now (resetAt record)); [lia|].
  destruct (Z.geb_spec (count record) RATE_LIMIT); [lia|]. done.
Qed.

Lemma checkRateLimit_full now ip store record :
  store !! ip = Some record → now ≤ resetAt record → RATE_LIMIT ≤ count record →
  checkRateLimit now ip store =
    ({| RateCheck.allowed := false;
        RateCheck.remaining := 0;
        RateCheck.resetAt := resetAt record |},
     store).
Proof.
  intros Hrec Hin Hge. unfold checkRateLimit. rewrite Hrec.
  destruct (Z.gtb_spec now (resetAt record)); [lia|].
  destruct (Z.geb_spec (count record) RATE_LIMIT); [done|lia].
Qed.

(** A request of one client leaves the record of every other alone. *)
Lemma checkRateLimit_other now ip ip' store :
  ip' ≠ ip → (checkRateLimit now ip' store).2 !! ip = store !! ip.
Proof.
  intros Hne. unfold checkRateLimit.
  destruct (store !! ip') as [record|]; simpl.
  - destruct (now >? resetAt record); simpl; [by rewrite lookup_insert_ne|].
    destruct (count record >=? RATE_LIMIT); simpl; [done|by rewrite lookup_insert_ne].
  - by rewrite lookup_insert_ne.
Qed.

(** The sweep removes expired records only. *)
Lemma sweep_live now ip store record :
  store !! ip = Some record → now ≤ resetAt record →
  sweep now store !! ip = Some record.
Proof.
  intros Hrec Hin. unfold sweep. apply map_lookup_filter_Some. split; [done|].
  simpl. lia.
Qed.

Lemma sweep_fresh now now' ip store :
  fresh now ip store → fresh now ip (sweep now' store).
Proof.
  unfold fresh, sweep. intros Hf.
  destruct (filter _ store !! ip) as [record|] eqn:E; [|done].
  apply map_lookup_filter_Some in E as [E _]. by rewrite E in Hf.
Qed.

End RateLimiter.

(** ** The handler monad *)

Lemma stable_refl w : stable w w.
Proof. split; auto. Qed.

Lemma stable_trans w1 w2 w3 : stable w1 w2 → stable w2 w3 → stable w1 w3.
Proof.
  intros [S1 H1 D1] [S2 H2 D2]. split.
  - congruence.
  - congruence.
  - destruct D2 as [D2|(st & hs & Hst & D2)].
    + rewrite D2. exact D1.
    + right. exists st, hs. by rewrite D2, H1.
Qed.

Lemma bind_run {A B : Type} (m : M A) (f : A → M B) (w : World) :
  (m ≫= f) w = match m w with
               | (Fulfilled a, w') => f a w'
               | (Rejected, w') => (Rejected, w')
               end.
Proof. reflexivity. Qed.

Lemma preserves_ret {A : Type} (a : A) : preserves (mret a).
Proof. intros w. apply stable_refl. Qed.

Lemma preserves_bind {A B : Type} (m : M A) (f : A → M B) :
  preserves m → (∀ a, preserves (f a)) → preserves (m ≫= f).
Proof.
  intros Hm Hf w. rewrite bind_run. specialize (Hm w).
  destruct (m w) as [[a|] w']; simpl in *; [|done].
  eapply stable_trans; [exact Hm|apply Hf].
Qed.

Lemma preserves_reject {A : Type} : preserves (@reject A).
Proof. intros w. apply stable_refl. Qed.

Lemma preserves_call c : preserves (call c).
Proof. intros w. split; simpl; auto. Qed.

Lemma preserves_write data : preserves (write data).
Proof. intros w. split; simpl; auto. Qed.

Lemma preserves_end data : preserves (end_ data).
Proof. intros w. split; simpl; auto. Qed.

Lemma preserves_writeHead st hs :
  (st, hs) ∈ replies → preserves (writeHead st hs).
Proof. intros Hst w. split; simpl; eauto. Qed.

Lemma preserves_sendJson st body :
  (st, jsonHeaders) ∈ replies → preserves (sendJson st body).
Proof.
  intros Hst. apply preserves_bind; [by apply preserves_writeHead|].
  intros _. apply preserves_end.
Qed.

Ltac in_replies :=
  unfold replies, jsonHeaders, textHeaders, streamHeaders;
  repeat first [apply list_elem_of_here | apply list_elem_of_further].

Lemma preserves_mapM {A B : Type} (f : A → M B) (l : list A) :
  (∀ a, preserves (f a)) → preserves (mapM f l).
Proof.
  intros Hf. induction l as [|a l IH]; simpl.
  - apply preserves_ret.
  - apply preserves_bind; [apply Hf|]. intros b.
    apply preserves_bind; [exact IH|]. intros bs. apply preserves_ret.
Qed.

Create HintDb handler.

#[local] Hint Resolve preserves_ret preserves_reject preserves_call preserves_write
  preserves_end preserves_mapM : handler.
#[local] Hint Extern 1 (preserves (writeHead _ _)) =>
  apply preserves_writeHead; in_replies : handler.
#[local] Hint Extern 1 (preserves (sendJson _ _)) =>
  apply preserves_sendJson; in_replies : handler.
#[local] Hint Extern 2 (preserves (_ ≫= _)) =>
  apply preserves_bind; [|intros ?] : handler.

Section Handler.
Context `{Config} `{Platform}.

Lemma preserves_readBody pending body bodySize :
  preserves (readBody pending body bodySize).
Proof.
  revert body bodySize. induction pending as [|chunk rest IH]; intros; simpl.
  - auto with handler.
  - apply preserves_bind; [auto with handler|]. intros _.
    destruct (_ >? _); [|apply IH]. auto with handler.
Qed.

Lemma preserves_reply message : preserves (reply message).
Proof.
  unfold reply. apply preserves_bind; [auto with handler|]. intros _.
  destruct (retriever_retrieve _ _) as [[|result results]|]; [| |auto with handler].
  - auto with handler.
  - apply preserves_bind; [auto with handler|]. intros _.
    apply preserves_bind; [auto with handler|]. intros _.
    destruct (streamOpenAI _ _) as [tokens ok].
    apply preserves_bind; [auto with handler|]. intros _.
    destruct ok; auto with handler.
Qed.

Lemma preserves_answer body : preserves (answer body).
Proof.
  unfold answer. apply preserves_bind; [auto with handler|]. intros _.
  destruct (JSON_parse _) as [parsed|]; [|auto with handler].
  destruct (getProperty _ _) as [|message]; [auto with handler|].
  destruct (_ || _); [auto with handler|].
  destruct (bool_decide _); [auto with handler|].
  destruct (_ >? _); [auto with handler|].
  apply preserves_reply.
Qed.

Lemma preserves_handleChat req : preserves (handleChat req).
Proof.
  unfold handleChat. apply preserves_bind; [apply preserves_readBody|].
  intros [body|]; [apply preserves_answer|apply preserves_ret].
Qed.

End Handler.

(** ** The request listener *)

Section Listener.
Context `{Config} `{Platform}.

Lemma chat_method req : isChat req = true → method req = "POST" ∧ url req = "/chat".
Proof.
  unfold isChat. intros Hc. apply andb_prop in Hc as [Hm Hu].
  by apply bool_decide_eq_true in Hm, Hu.
Qed.

(** A [POST /chat] request: the limiter decides, then [handleChat]
    runs on the response carrying the rate-limit headers. *)
Lemma serve_chat now now' req store :
  isChat req = true →
  serve now now' req store =
    let rc := (checkRateLimit now (getClientIP req) store).1 in
    let store' := (checkRateLimit now (getClientIP req) store).2 in
    if RateCheck.allowed rc then handleChat req (letThrough rc store')
    else (Fulfilled (),
          {| rateLimitStore := store'; res := tooManyRequests rc now'; calls := [] |}).
Proof.
  intros Hc. destruct (chat_method req Hc) as [Hm Hu].
  unfold serve, server. rewrite Hm, Hu. simpl.
  rewrite !bind_run. unfold withStore. simpl.
  destruct (checkRateLimit now (getClientIP req) store) as [rc store']. simpl.
  destruct (RateCheck.allowed rc); reflexivity.
Qed.

Lemma serve_other now now' req store :
  isChat req = false → rateLimitStore (serve now now' req store).2 = store.
Proof.
  intros Hc. unfold serve, server. unfold isChat in Hc. rewrite Hc.
  destruct (bool_decide (method req = "OPTIONS")); [done|].
  destruct (bool_decide (method req = "GET") && _); [|done].
  rewrite bind_run. simpl. by destruct store_count.
Qed.

Lemma serve_store now now' req store :
  rateLimitStore (serve now now' req store).2 =
    if isChat req then (checkRateLimit now (getClientIP req) store).2 else store.
Proof.
  destruct (isChat req) eqn:Hc; [|by apply serve_other].
  rewrite serve_chat by done. simpl.
  destruct (RateCheck.allowed _); [|done].
  by rewrite (stable_store _ _ (preserves_handleChat req _)).
Qed.

(** [handleChat] answers 200, 400 or 413, or not at all. *)
Lemma handleChat_status req rc store :
  let st := status (handleChat req (letThrough rc store)) in
  st = None ∨ st = Some 200 ∨ st = Some 400 ∨ st = Some 413.
Proof.
  unfold status.
  destruct (stable_head _ _ (preserves_handleChat req (letThrough rc store)))
    as [->|(st & hs & Hst & ->)]; simpl; [by left|].
  unfold replies in Hst. rewrite !elem_of_cons, elem_of_nil in Hst.
  destruct Hst as [E|[E|[E|[E|[]]]]]; inversion E; auto.
Qed.

End Listener.

(** ** A window of the rate limiter, along a history *)

Lemma requestsOf_cons ip e history :
  requestsOf ip (e :: history) =
    (if chatOf ip e then 1 else 0) + requestsOf ip history.
Proof.
  unfold requestsOf. rewrite filter_cons.
  destruct (decide (chatOf ip e = true)) as [->|Hn].
  - rewrite length_cons. lia.
  - apply not_true_is_false in Hn. rewrite Hn. lia.
Qed.

Lemma requestsOf_nonneg ip history : 0 ≤ requestsOf ip history.
Proof. unfold requestsOf. lia. Qed.

Section Window.
Context `{Config} `{Platform}.

Lemma step_window ip R store e c :
  store !! ip = Some {| count := c; resetAt := R |} →
  inWindow ip R e = true →
  step store e !! ip =
    Some {| count := if chatOf ip e && (c <? RATE_LIMIT) then c + 1 else c;
            resetAt := R |}.
Proof.
  intros Hrec Hin. destruct e as [now now' req|now]; simpl in *.
  - rewrite serve_store. destruct (isChat req) eqn:Hc; simpl in *; [|done].
    destruct (bool_decide (getClientIP req = ip)) eqn:Hip; simpl in *.
    + apply bool_decide_eq_true in Hip. subst ip. apply Z.leb_le in Hin.
      destruct (Z.ltb_spec c RATE_LIMIT).
      * rewrite (checkRateLimit_open _ _ _ _ Hrec) by (simpl; lia).
        simpl. by rewrite lookup_insert_eq.
      * by rewrite (checkRateLimit_full _ _ _ _ Hrec) by (simpl; lia).
    + apply bool_decide_eq_false in Hip. by rewrite checkRateLimit_other.
  - apply Z.leb_le in Hin. by rewrite (sweep_live _ _ _ _ Hrec) by (simpl; lia).
Qed.

(** Inside its window a record counts the requests of its client, up
    to the limit. *)
Lemma run_window ip R history : ∀ store c,
  store !! ip = Some {| count := c; resetAt := R |} →
  forallb (inWindow ip R) history = true →
  run history store !! ip =
    Some {| count := Z.min (c + requestsOf ip history) (Z.max c RATE_LIMIT);
            resetAt := R |}.
Proof.
  induction history as [|e history IH]; intros store c Hrec Hin.
  - simpl. rewrite Hrec. f_equal. f_equal. unfold requestsOf. simpl. lia.
  - simpl in Hin. apply andb_prop in Hin as [He Hin].
    unfold run. simpl. fold (run history (step store e)).
    rewrite (IH _ _ (step_window _ _ _ _ _ Hrec He) Hin).
    rewrite requestsOf_cons. pose proof (requestsOf_nonneg ip history).
    f_equal. f_equal.
    destruct (chatOf ip e); simpl; [|lia].
    destruct (Z.ltb_spec c RATE_LIMIT); lia.
Qed.

End Window.

(** ** What [handleChat] does, step by step *)

Lemma logged_nil w : logged [] w = w.
Proof. destruct w. unfold logged. simpl. by rewrite app_nil_r. Qed.

Lemma logged_logged cs1 cs2 w : logged cs2 (logged cs1 w) = logged (cs1 ++ cs2) w.
Proof. unfold logged. simpl. by rewrite app_assoc. Qed.

Lemma sendJson_run st body w :
  sendJson st body w = (Fulfilled (), replied st jsonHeaders [Stringify (JObj body)] w).
Proof. reflexivity. Qed.

Lemma write_all tokens : ∀ w,
  ∃ units,
    mapM (λ token, write (Text token)) tokens w =
      (Fulfilled units,
       {| rateLimitStore := rateLimitStore w;
          res := {| res_headers := res_headers (res w); res_head := res_head (res w);
                    res_body := res_body (res w) ++ (Text <$> tokens);
                    res_ended := res_ended (res w) |};
          calls := calls w |}).
Proof.
  induction tokens as [|token tokens IH]; intros w.
  - exists []. simpl. unfold mret, M_ret. destruct w as [s [hs hd bd en] cs]. simpl.
    by rewrite app_nil_r.
  - simpl. rewrite bind_run. simpl.
    destruct (IH (write (Text token) w).2) as [units E]. simpl in E.
    exists (() :: units). rewrite bind_run.
    unfold write, withResponse in *. simpl in *. rewrite E. simpl.
    unfold mret, M_ret. by rewrite <- app_assoc.
Qed.

Section Steps.
Context `{Config} `{Platform}.

Lemma chunkBytes_cons chunk rest :
  chunkBytes (chunk :: rest) = Z.of_nat (length chunk) + chunkBytes rest.
Proof. unfold chunkBytes. simpl. rewrite length_app. lia. Qed.

Lemma chunkBytes_nonneg pending : 0 ≤ chunkBytes pending.
Proof. unfold chunkBytes. lia. Qed.

(** A body within the limit is read to its end. *)
Lemma readBody_within pending : ∀ body bodySize w,
  bodySize + chunkBytes pending ≤ MAX_BODY_SIZE →
  readBody pending body bodySize w =
    (Fulfilled (Some (body ++ concat (Buffer_toString <$> pending))),
     logged (ReadChunk <$> pending) w).
Proof.
  induction pending as [|chunk rest IH]; intros body bodySize w Hle.
  - simpl. unfold mret, M_ret. by rewrite logged_nil, app_nil_r.
  - rewrite chunkBytes_cons in Hle. pose proof (chunkBytes_nonneg rest).
    simpl. rewrite bind_run. simpl.
    destruct (Z.gtb_spec (bodySize + Z.of_nat (length chunk)) MAX_BODY_SIZE); [lia|].
    rewrite IH by lia. f_equal; [by rewrite <- app_assoc|].
    apply (logged_logged [ReadChunk chunk]).
Qed.

(** A body over the limit is read up to the first chunk that passes
    it, and answered 413. *)
Lemma readBody_over pending : ∀ body bodySize w,
  bodySize ≤ MAX_BODY_SIZE →
  MAX_BODY_SIZE < bodySize + chunkBytes pending →
  ∃ before chunk rest,
    pending = before ++ chunk :: rest
    ∧ bodySize + chunkBytes before ≤ MAX_BODY_SIZE
    ∧ MAX_BODY_SIZE < bodySize + chunkBytes (before ++ [chunk])
    ∧ readBody pending body bodySize w =
        (Fulfilled None,
         replied 413 jsonHeaders
           [Stringify (JObj (errorBody (js "Request too large")))]
           (logged (ReadChunk <$> (before ++ [chunk])) w)).
Proof.
  induction pending as [|chunk rest IH]; intros body bodySize w Hinv Hover.
  - unfold chunkBytes in Hover. simpl in Hover. lia.
  - rewrite chunkBytes_cons in Hover. simpl. rewrite bind_run. simpl.
    destruct (Z.gtb_spec (bodySize + Z.of_nat (length chunk)) MAX_BODY_SIZE) as [Hgt|Hle].
    + exists [], chunk, rest. simpl. rewrite chunkBytes_cons.
      unfold chunkBytes at 1 2. simpl. split; [done|]. split; [lia|]. split; [lia|].
      reflexivity.
    + destruct (IH (body ++ Buffer_toString chunk)
                   (bodySize + Z.of_nat (length chunk))
                   (logged [ReadChunk chunk] w)) as (before & c & rest' & -> & Hb & Ha & E);
        [lia|lia|].
      exists (chunk :: before), c, rest'. simpl. rewrite !chunkBytes_cons.
      split; [done|]. split; [lia|]. split; [lia|].
      unfold call. fold (logged [ReadChunk chunk] w). rewrite E.
      by rewrite (logged_logged [ReadChunk chunk]).
Qed.

Lemma reply_run message w :
  reply message w =
    match retriever_retrieve message 8 with
    | None => (Rejected, logged [Retrieve message 8] w)
    | Some [] =>
        (Fulfilled (),
         replied 200 textHeaders [Text apology] (logged [Retrieve message 8] w))
    | Some results =>
        (Fulfilled (),
         replied 200 streamHeaders (streamed results message)
           (logged [Retrieve message 8;
                    StreamOpenAI (systemPromptFor results) message] w))
    end.
Proof.
  unfold reply. rewrite bind_run. simpl.
  destruct (retriever_retrieve message 8) as [[|result results]|]; [done| |done].
  rewrite !bind_run. simpl. unfold streamed.
  destruct (streamOpenAI _ _) as [tokens ok]. unfold call. simpl.
  rewrite !bind_run. simpl.
  match goal with |- context [mapM _ tokens ?w0] =>
    destruct (write_all tokens w0) as [units ->] end.
  unfold replied, logged, end_, withResponse. simpl.
  destruct ok; simpl; rewrite <- ?app_assoc, ?app_nil_r; simpl; reflexivity.
Qed.

End Steps.

(** ** The validation *)

Lemma trimStart_nil_length s : trimStart s = [] ∨ (0 < length (trimStart s))%nat.
Proof. destruct (trimStart s); [by left|right; simpl; lia]. Qed.

Lemma length_zero_nil {A : Type} (l : list A) : Z.of_nat (length l) < 1 → l = [].
Proof. destruct l; simpl; [done|lia]. Qed.

Section Validation.
Context `{Config} `{Platform}.

(** Every body text is a bad request or a valid one, never both. *)
Lemma bad_or_valid text : badRequest text ∨ ∃ m, validRequest text m.
Proof.
  unfold badRequest, validRequest.
  destruct (JSON_parse text) as [v|]; [|by left].
  destruct (messageOf v) as [[| | |m'| |]|] eqn:Hm; try by left.
  destruct (decide (Z.of_nat (length (trim m')) < 1)) as [Hz|Hz].
  - left. left. by apply length_zero_nil.
  - destruct (decide (2000 < Z.of_nat (length (trim m')))) as [Hl|Hl].
    + left. by right.
    + right. exists (trim m'), v, m'. repeat split; auto; lia.
Qed.

Lemma bad_not_valid text m : badRequest text → validRequest text m → False.
Proof.
  unfold badRequest. intros Hbad (v & m' & Hp & Hm & <- & Hlen).
  rewrite Hp, Hm in Hbad. destruct Hbad as [E|E]; [rewrite E in Hlen; simpl in Hlen|]; lia.
Qed.

Lemma messageOf_property v m :
  messageOf v = Some m → getProperty v (js "message") = Value (Some m).
Proof. destruct v; simpl; try done. by intros ->. Qed.

(** A valid request goes on to the retrieval with its trimmed
    message. *)
Lemma answer_valid text m w :
  validRequest (parsedText text) m →
  answer text w = reply m (logged [ParseJson (parsedText text)] w).
Proof.
  intros (v & m' & Hp & Hm & Htrim & Hlen).
  unfold answer. fold (parsedText text).
  rewrite bind_run. simpl. rewrite Hp, (messageOf_property _ _ Hm). simpl.
  rewrite Htrim.
  assert (m' ≠ []) as Hm' by (intros ->; subst m; simpl in Hlen; lia).
  rewrite (bool_decide_eq_false_2 _ Hm'). simpl.
  assert (m ≠ []) as Hm0 by (intros ->; simpl in Hlen; lia).
  rewrite (bool_decide_eq_false_2 _ Hm0).
  destruct (Z.gtb_spec (Z.of_nat (length m)) MAX_MESSAGE_LENGTH) as [Hgt|_];
    [unfold MAX_MESSAGE_LENGTH in Hgt; lia|].
  reflexivity.
Qed.

(** A bad request is answered 400. *)
Lemma answer_bad text w :
  badRequest (parsedText text) →
  ∃ error,
    answer text w =
      (Fulfilled (), errorReply 400 error (logged [ParseJson (parsedText text)] w)).
Proof.
  unfold badRequest, answer. fold (parsedText text). intros Hbad.
  rewrite bind_run. simpl.
  destruct (JSON_parse (parsedText text)) as [v|]; [|by eexists].
  destruct v as [|b|n e|s|items|members]; simpl in *; try by eexists.
  destruct (getOwn (js "message") members) as [[|b|n e|m|items|ms]|];
    simpl; try by eexists.
  - destruct b; by eexists.
  - destruct (negb (n =? 0)); by eexists.
  - destruct (bool_decide (m = [])); simpl; [by eexists|].
    destruct Hbad as [->|Hlong].
    + rewrite bool_decide_eq_true_2 by done. by eexists.
    + destruct (bool_decide (trim m = [])); [by eexists|].
      destruct (Z.gtb_spec (Z.of_nat (length (trim m))) MAX_MESSAGE_LENGTH) as [_|Hle];
        [by eexists|unfold MAX_MESSAGE_LENGTH in Hle; lia].
Qed.

(** A message that is too long is told the limit. *)
Lemma answer_too_long text v m w :
  text ≠ [] → JSON_parse text = Some v → messageOf v = Some (JStr m) →
  2000 < Z.of_nat (length (trim m)) →
  answer text w =
    (Fulfilled (),
     errorReply 400 (js "Message too long (max 2000 characters)")
       (logged [ParseJson text] w)).
Proof.
  intros Hne Hp Hm Hlong. unfold answer. destruct text as [|c text]; [done|].
  rewrite bind_run. simpl. rewrite Hp, (messageOf_property _ _ Hm). simpl.
  assert (m ≠ []) as Hm' by (intros ->; simpl in Hlong; lia).
  rewrite (bool_decide_eq_false_2 _ Hm'). simpl.
  assert (trim m ≠ []) as Hm0 by (intros E; rewrite E in Hlong; simpl in Hlong; lia).
  rewrite (bool_decide_eq_false_2 _ Hm0).
  destruct (Z.gtb_spec (Z.of_nat (length (trim m))) MAX_MESSAGE_LENGTH) as [_|Hle];
    [|unfold MAX_MESSAGE_LENGTH in Hle; lia].
  reflexivity.
Qed.

(** [handleChat] on a body within the limit. *)
Lemma handleChat_within req w :
  bodyBytes req ≤ MAX_BODY_SIZE →
  handleChat req w = answer (bodyText req) (logged (ReadChunk <$> chunks req) w).
Proof.
  intros Hle. unfold handleChat. rewrite bind_run.
  by rewrite readBody_within by (unfold bodyBytes in Hle; lia).
Qed.

(** [handleChat] answers whenever it returns. *)
Lemma handleChat_responds req w :
  (handleChat req w).1 = Fulfilled () → is_Some (res_head (res (handleChat req w).2)).
Proof.
  destruct (decide (bodyBytes req ≤ MAX_BODY_SIZE)) as [Hle|Hgt].
  - rewrite handleChat_within by done.
    destruct (bad_or_valid (parsedText (bodyText req))) as [Hbad|[m Hval]].
    + destruct (answer_bad _ (logged (ReadChunk <$> chunks req) w) Hbad) as [e ->].
      simpl. eauto.
    + rewrite (answer_valid _ _ _ Hval), reply_run.
      destruct (retriever_retrieve m 8) as [[|result results]|]; simpl; eauto.
      intros; discriminate.
  - unfold handleChat. rewrite bind_run.
    destruct (readBody_over (chunks req) [] 0 w) as (b & c & r & _ & _ & _ & ->);
      [unfold MAX_BODY_SIZE; lia|unfold bodyBytes in Hgt; lia|].
    simpl. eauto.
Qed.

(** Chunks of no bytes add no text. *)
Lemma empty_body_text pending :
  Buffer_toString [] = [] → chunkBytes pending = 0 →
  concat (Buffer_toString <$> pending) = [].
Proof.
  intros Hnil. induction pending as [|chunk rest IH]; [done|].
  rewrite chunkBytes_cons. pose proof (chunkBytes_nonneg rest). intros Hz.
  assert (chunk = []) as -> by (destruct chunk; [done|simpl in Hz; lia]).
  rewrite fmap_cons. cbn [concat]. rewrite Hnil. simpl. apply IH. lia.
Qed.

End Validation.

Section Verdict.
Context `{Config} `{Platform}.

(** The status of the answer tells the bad requests from the valid. *)
Lemma answer_status text w :
  res_head (res w) = None →
  (status (answer text w) = Some 400 ↔ badRequest (parsedText text)).
Proof.
  intros Hhead. split.
  - intros Hst. destruct (bad_or_valid (parsedText text)) as [|[m Hval]]; [done|].
    rewrite (answer_valid _ _ _ Hval), reply_run in Hst. unfold status in Hst.
    destruct (retriever_retrieve m 8) as [[|result results]|]; simpl in Hst;
      rewrite ?Hhead in Hst; discriminate.
  - intros Hbad. by destruct (answer_bad text w Hbad) as [e ->].
Qed.

Lemma parsedText_bad text :
  JSON_parse [] = None → JSON_parse (js "{}") = Some (JObj []) →
  (badRequest (parsedText text) ↔ badRequest text).
Proof.
  intros Hempty Hobj. destruct text as [|c text]; [|done].
  unfold badRequest. simpl. by rewrite Hempty, Hobj.
Qed.

Lemma parsedText_valid text m :
  JSON_parse [] = None → validRequest text m → parsedText text = text.
Proof.
  intros Hempty (v & m' & Hp & _). destruct text; [congruence|done].
Qed.

End Verdict.

(** ** The rate-limit headers *)

Lemma replies_plain st hs k :
  (st, hs) ∈ replies →
  k = "X-RateLimit-Limit" ∨ k = "X-RateLimit-Remaining" ∨ k = "X-RateLimit-Reset" →
  hs !! k = None.
Proof.
  unfold replies. rewrite !elem_of_cons, elem_of_nil.
  intros [E|[E|[E|[E|[]]]]] [->|[->| ->]]; inversion E; subst; reflexivity.
Qed.

Lemma rateHeaders_lookup `{Config} rc :
  rateHeaders rc !! "X-RateLimit-Limit" = Some (HNum RATE_LIMIT)
  ∧ rateHeaders rc !! "X-RateLimit-Remaining"
    = Some (HNum (Z.max 0 (RateCheck.remaining rc)))
  ∧ rateHeaders rc !! "X-RateLimit-Reset"
    = Some (HNum (ceil_div (RateCheck.resetAt rc) 1000)).
Proof.
  unfold rateHeaders. split; [|split]; reflexivity.
Qed.

(** ** Addresses, and the environment *)

Lemma split_first s : default [] (split comma s !! 0%nat) = firstAddress s.
Proof.
  induction s as [|c r IH]; [done|]. simpl.
  destruct (c =? comma)%N; [done|].
  destruct (split comma r) as [|x xs]; simpl in *; by rewrite <- IH.
Qed.

Lemma isSet_nonEmpty (env : Env) name : isSet (env !! name) = true ↔ nonEmpty env name.
Proof.
  unfold isSet, nonEmpty. destruct (env !! name) as [value|].
  - rewrite negb_true_iff, bool_decide_eq_false. split.
    + intros Hne. by exists value.
    + by intros (v & [= <-] & Hne).
  - split; [done|]. by intros (v & [=] & _).
Qed.

Lemma render_inj_last dir a b : render (dir ++ [a]) = render (dir ++ [b]) → a = b.
Proof.
  induction dir as [|seg dir IH]; simpl.
  - intros [= E]. revert E. generalize b. induction a as [|x a IHa]; intros [|y b'];
      simpl; try done. intros [= -> E]. f_equal. by apply IHa.
  - intros [= E]. apply IH. revert E.
    generalize (render (dir ++ [a])) (render (dir ++ [b])).
    induction seg as [|x seg IHs]; simpl; [done|]. intros s1 s2 [= E]. by apply IHs.
Qed.

(** The default directory of the server is not the one of the factory. *)
Lemma default_paths_differ root :
  Startup.defaultDbPath root ≠ StoreFactory.DEFAULT_LANCEDB_PATH root.
Proof.
  unfold Startup.defaultDbPath, StoreFactory.DEFAULT_LANCEDB_PATH,
    Startup.__dirname, StoreFactory.__dirname, path_resolve.
  simpl. rewrite removelast_last. intros E. by apply render_inj_last in E.
Qed.


(** * The claims *)

(** ** C9: the first request of a window *)

(** C9.  For a client whose rate-limit record is absent, or expired (the
    clock strictly past [resetAt]), [checkRateLimit] answers allowed and
    writes a fresh record of count 1 for the window starting now,
    whatever [RATE_LIMIT] is; the remaining count it reports is
    [RATE_LIMIT - 1], which is negative when the limit is 0. *)
Theorem C9_first_request_always_allowed `{Config} now ip store :
  fresh now ip store →
  checkRateLimit now ip store =
    ({| RateCheck.allowed := true;
        RateCheck.remaining := RATE_LIMIT - 1;
        RateCheck.resetAt := now + RATE_WINDOW_MS |},
     <[ip := {| count := 1; resetAt := now + RATE_WINDOW_MS |}]> store)
  ∧ (RATE_LIMIT = 0 →
     RateCheck.allowed (checkRateLimit now ip store).1 = true
     ∧ RateCheck.remaining (checkRateLimit now ip store).1 < 0).
Proof.
  intros Hfresh. rewrite (checkRateLimit_fresh _ _ _ Hfresh).
  split; [done|]. simpl. intros ->. split; [done|lia].
Qed.

Lemma C9_witness :
  fresh 5000 (js "10.0.0.1") ({[ js "10.0.0.1" := {| count := 7; resetAt := 4999 |} ]})
  ∧ RateCheck.allowed
      (@checkRateLimit (limit 0) 5000 (js "10.0.0.1")
         {[ js "10.0.0.1" := {| count := 7; resetAt := 4999 |} ]}).1 = true
  ∧ RateCheck.remaining
      (@checkRateLimit (limit 0) 5000 (js "10.0.0.1")
         {[ js "10.0.0.1" := {| count := 7; resetAt := 4999 |} ]}).1 < 0.
Proof.
  split; [vm_compute; reflexivity|].
  apply (@C9_first_request_always_allowed (limit 0) 5000 (js "10.0.0.1")
           {[ js "10.0.0.1" := {| count := 7; resetAt := 4999 |} ]});
    vm_compute; reflexivity.
Defined.

(** ** C1: the window of the rate limiter *)

Section RateLimitWindow.
Context `{Config} `{Platform}.

(** C1, amended.  Let the configured limit be at least 1.  A
    [POST /chat] request of a client with no live record opens a window
    and is accepted.  Along any history in which the requests of that
    client and the sweeps come no later than the window's [resetAt],
    with [made] requests of the client so far, the next request within
    the window is accepted when [made < RATE_LIMIT] (it is handed to
    [handleChat] and the count becomes [made + 1]) and is otherwise
    answered 429, with [Retry-After] the seconds from the clock to
    [resetAt] and the JSON error body, the store unchanged; a request
    after [resetAt] is accepted and opens a window of count 1. *)
Theorem C1_rate_limit_window ip store t0 t0' first history :
  1 ≤ RATE_LIMIT →
  chatOf ip (Incoming t0 t0' first) = true →
  fresh t0 ip store →
  forallb (inWindow ip (t0 + RATE_WINDOW_MS)) history = true →
  let reset := t0 + RATE_WINDOW_MS in
  let made := 1 + requestsOf ip history in
  let store' := run (Incoming t0 t0' first :: history) store in
  status (serve t0 t0' first store) ≠ Some 429
  ∧ ∀ now now' req, chatOf ip (Incoming now now' req) = true →
      (now ≤ reset → made < RATE_LIMIT →
         serve now now' req store' =
           handleChat req
             (letThrough {| RateCheck.allowed := true;
                          RateCheck.remaining := RATE_LIMIT - (made + 1);
                          RateCheck.resetAt := reset |}
                (<[ip := {| count := made + 1; resetAt := reset |}]> store'))
         ∧ status (serve now now' req store') ≠ Some 429)
      ∧ (now ≤ reset → RATE_LIMIT ≤ made →
         serve now now' req store' =
           (Fulfilled (),
            {| rateLimitStore := store';
               res := tooManyRequests
                        {| RateCheck.allowed := false;
                           RateCheck.remaining := 0;
                           RateCheck.resetAt := reset |} now';
               calls := [] |}))
      ∧ (reset < now →
         serve now now' req store' =
           handleChat req
             (letThrough {| RateCheck.allowed := true;
                          RateCheck.remaining := RATE_LIMIT - 1;
                          RateCheck.resetAt := now + RATE_WINDOW_MS |}
                (<[ip := {| count := 1; resetAt := now + RATE_WINDOW_MS |}]> store'))
         ∧ status (serve now now' req store') ≠ Some 429).
Proof.
  intros Hlimit Hfirst Hfresh Hhist reset made store'.
  simpl in Hfirst. apply andb_prop in Hfirst as [Hchat Hip].
  apply bool_decide_eq_true in Hip.
  assert (Hnot429 : ∀ r rc s, status (handleChat r (letThrough rc s)) ≠ Some 429).
  { intros r rc s. destruct (handleChat_status r rc s) as [E|[E|[E|E]]];
      simpl in E; rewrite E; discriminate. }
  assert (Hlk : store' !! ip
                = Some {| count := Z.min made RATE_LIMIT; resetAt := reset |}).
  { unfold store', run. simpl. fold (run history (rateLimitStore (serve t0 t0' first store).2)).
    rewrite serve_store, Hchat, Hip, (checkRateLimit_fresh _ _ _ Hfresh). simpl.
    rewrite (run_window ip reset history _ 1); [|by rewrite lookup_insert_eq|done].
    f_equal. f_equal. unfold made. lia. }
  split.
  { rewrite serve_chat by done. rewrite Hip, (checkRateLimit_fresh _ _ _ Hfresh).
    simpl. apply Hnot429. }
  intros now now' req Hreq. simpl in Hreq.
  apply andb_prop in Hreq as [Hchat' Hip']. apply bool_decide_eq_true in Hip'.
  pose proof (requestsOf_nonneg ip history) as Hk.
  split; [|split].
  - intros Hin Hlt. rewrite serve_chat by done. rewrite Hip'.
    rewrite (checkRateLimit_open _ _ _ _ Hlk) by (simpl; lia). simpl.
    rewrite Z.min_l by lia. split; [done|apply Hnot429].
  - intros Hin Hge. rewrite serve_chat by done. rewrite Hip'.
    rewrite (checkRateLimit_full _ _ _ _ Hlk) by (simpl; lia). done.
  - intros Hout. rewrite serve_chat by done. rewrite Hip'.
    rewrite checkRateLimit_fresh by (unfold fresh; rewrite Hlk; simpl; lia).
    simpl. split; [done|apply Hnot429].
Qed.

End RateLimitWindow.

(** ** C3: the size limit comes before the parsing *)

(** C3.  When the body of a request is over 8192 bytes, [handleChat]
    reads its chunks up to the first one that takes the size over the
    limit and no further, answers 413, and makes no other platform call:
    the body is never given to [JSON.parse].  [JSON.parse] is called only
    for bodies of at most 8192 bytes. *)
Theorem C3_oversized_body_is_rejected_unparsed `{Platform} req w :
  (MAX_BODY_SIZE < bodyBytes req →
   ∃ before chunk rest,
     chunks req = before ++ chunk :: rest
     ∧ chunkBytes before ≤ MAX_BODY_SIZE
     ∧ MAX_BODY_SIZE < chunkBytes (before ++ [chunk])
     ∧ handleChat req w =
         (Fulfilled (),
          errorReply 413 (js "Request too large")
            (logged (ReadChunk <$> (before ++ [chunk])) w)))
  ∧ (∀ text, ParseJson text ∈ calls (handleChat req w).2 →
             ParseJson text ∉ calls w → bodyBytes req ≤ MAX_BODY_SIZE).
Proof.
  assert (Hover : MAX_BODY_SIZE < bodyBytes req →
    ∃ before chunk rest,
      chunks req = before ++ chunk :: rest
      ∧ chunkBytes before ≤ MAX_BODY_SIZE
      ∧ MAX_BODY_SIZE < chunkBytes (before ++ [chunk])
      ∧ handleChat req w =
          (Fulfilled (),
           errorReply 413 (js "Request too large")
             (logged (ReadChunk <$> (before ++ [chunk])) w))).
  { intros Hgt. unfold handleChat.
    destruct (readBody_over (chunks req) [] 0 w) as (b & c & r & E & Hb & Ha & Hrun);
      [unfold MAX_BODY_SIZE; lia|unfold bodyBytes in Hgt; lia|].
    exists b, c, r. rewrite bind_run, Hrun.
    split; [done|]. split; [lia|]. split; [lia|]. reflexivity. }
  split; [exact Hover|].
  intros text Hin Hnew. destruct (decide (bodyBytes req ≤ MAX_BODY_SIZE)) as [|Hgt]; [done|].
  destruct Hover as (b & c & r & _ & _ & _ & Hrun); [lia|].
  rewrite Hrun in Hin. simpl in Hin. apply elem_of_app in Hin as [Hin|Hin]; [done|].
  apply list_elem_of_fmap in Hin as (chunk & Heq & _). discriminate.
Qed.

(** ** C10: the empty body *)

(** C10.  A request whose body has no bytes has [{}] parsed in its place,
    and is answered 400 with the error [message required], not the error
    [Invalid JSON]. *)
Theorem C10_empty_body_is_message_required `{Platform} req w :
  Buffer_toString [] = [] →
  JSON_parse (js "{}") = Some (JObj []) →
  bodyBytes req = 0 →
  handleChat req w =
    (Fulfilled (),
     errorReply 400 (js "message required")
       (logged ((ReadChunk <$> chunks req) ++ [ParseJson (js "{}")]) w))
  ∧ js "message required" ≠ js "Invalid JSON".
Proof.
  intros Hnil Hobj Hzero. split; [|discriminate].
  rewrite handleChat_within by (unfold MAX_BODY_SIZE; lia).
  unfold bodyText. rewrite (empty_body_text _ Hnil Hzero).
  unfold answer. rewrite bind_run. simpl. rewrite Hobj. simpl.
  unfold call. simpl. rewrite sendJson_run. unfold errorReply, logged. simpl.
  by rewrite <- app_assoc.
Qed.

(** ** C7: no results *)

(** C7.  For a request whose body is within the size limit and is JSON
    with a string [message] of trimmed length 1 to 2000, when the
    retriever returns the empty sequence, [handleChat] answers 200 with
    [Content-Type: text/plain] and the fixed apology text; so does the
    server, for every such request the rate limiter lets through. *)
Theorem C7_no_results_is_an_apology `{Config} `{Platform} req m :
  JSON_parse [] = None →
  bodyBytes req ≤ MAX_BODY_SIZE →
  validRequest (bodyText req) m →
  retriever_retrieve m 8 = Some [] →
  (∀ w, handleChat req w =
          (Fulfilled (),
           replied 200 textHeaders [Text apology]
             (logged ((ReadChunk <$> chunks req)
                      ++ [ParseJson (bodyText req); Retrieve m 8]) w)))
  ∧ (∀ now now' store,
       isChat req = true →
       RateCheck.allowed (checkRateLimit now (getClientIP req) store).1 = true →
       let out := serve now now' req store in
       out.1 = Fulfilled ()
       ∧ status out = Some 200
       ∧ sentHeaders out !! "Content-Type" = Some (HStr "text/plain; charset=utf-8")
       ∧ res_body (res out.2) = [Text apology]
       ∧ res_ended (res out.2) = true).
Proof.
  intros Hempty Hle Hval Hnone.
  assert (Hne : parsedText (bodyText req) = bodyText req).
  { destruct (bodyText req) eqn:E; [|done].
    destruct Hval as (v & m' & Hp & _). congruence. }
  assert (Hrun : ∀ w, handleChat req w =
          (Fulfilled (),
           replied 200 textHeaders [Text apology]
             (logged ((ReadChunk <$> chunks req)
                      ++ [ParseJson (bodyText req); Retrieve m 8]) w))).
  { intros w. rewrite handleChat_within by done.
    rewrite (answer_valid _ m) by (by rewrite Hne).
    rewrite reply_run, Hnone, Hne, !logged_logged, <- ?app_assoc. reflexivity. }
  split; [exact Hrun|].
  intros now now' store Hchat Hallowed out. unfold out.
  rewrite serve_chat by done. simpl. rewrite Hallowed, Hrun.
  unfold status, sentHeaders. simpl. repeat split; try done.
Qed.

(** ** C2: the status 400 *)

(** C2, amended.  Let the empty text be no JSON and [{}] parse to the
    empty object.  For a [POST /chat] request that the rate limiter lets
    through and whose body is at most 8192 bytes, the status is 400 if
    and only if the body is not valid JSON, or its [message] is absent or
    not a string, or is empty after trimming, or is longer than 2000
    after trimming; in the last case the error text names the limit of
    2000 characters.  For a body that is JSON with a string [message] of
    trimmed length 1 to 2000 the status is not 400. *)
Theorem C2_status_400_iff_bad_request `{Config} `{Platform} now now' req store :
  JSON_parse [] = None →
  JSON_parse (js "{}") = Some (JObj []) →
  isChat req = true →
  RateCheck.allowed (checkRateLimit now (getClientIP req) store).1 = true →
  bodyBytes req ≤ MAX_BODY_SIZE →
  let out := serve now now' req store in
  (status out = Some 400 ↔ badRequest (bodyText req))
  ∧ (∀ v m, JSON_parse (bodyText req) = Some v → messageOf v = Some (JStr m) →
            2000 < Z.of_nat (length (trim m)) →
            status out = Some 400
            ∧ res_body (res out.2) =
                [Stringify (JObj (errorBody (js "Message too long (max 2000 characters)")))])
  ∧ (∀ m, validRequest (bodyText req) m → status out ≠ Some 400).
Proof.
  intros Hempty Hobj Hchat Hallowed Hle out.
  assert (Hout : out = answer (bodyText req)
                         (logged (ReadChunk <$> chunks req)
                            (letThrough (checkRateLimit now (getClientIP req) store).1
                                      (checkRateLimit now (getClientIP req) store).2))).
  { unfold out. rewrite serve_chat by done. simpl. rewrite Hallowed.
    by apply handleChat_within. }
  assert (Hiff : status out = Some 400 ↔ badRequest (bodyText req)).
  { rewrite Hout, answer_status by done. by apply parsedText_bad. }
  split; [exact Hiff|]. split.
  - intros v m Hp Hm Hlong.
    assert (bodyText req ≠ []) as Hne by (intros E; rewrite E in Hp; congruence).
    rewrite Hout, (answer_too_long _ v m) by done. done.
  - intros m Hval Hst. apply Hiff in Hst. by apply (bad_not_valid _ m Hst).
Qed.

(** ** C6: the rate-limit headers *)

(** C6.  Every response to a [POST /chat] request, whatever its status,
    carries [X-RateLimit-Limit] with the configured limit,
    [X-RateLimit-Remaining] with the remaining count of the limiter's
    answer raised to zero when negative, and [X-RateLimit-Reset] with the
    reset time in seconds, rounded up; and a response is sent whenever
    the listener returns. *)
Theorem C6_every_chat_response_has_rate_headers `{Config} `{Platform}
    now now' req store :
  isChat req = true →
  let out := serve now now' req store in
  let rc := (checkRateLimit now (getClientIP req) store).1 in
  (out.1 = Fulfilled () → is_Some (res_head (res out.2)))
  ∧ ∀ st hs, res_head (res out.2) = Some (st, hs) →
      hs !! "X-RateLimit-Limit" = Some (HNum RATE_LIMIT)
      ∧ hs !! "X-RateLimit-Remaining" = Some (HNum (Z.max 0 (RateCheck.remaining rc)))
      ∧ 0 ≤ Z.max 0 (RateCheck.remaining rc)
      ∧ hs !! "X-RateLimit-Reset" = Some (HNum (ceil_div (RateCheck.resetAt rc) 1000)).
Proof.
  intros Hchat out rc. unfold out. rewrite serve_chat by done. simpl. fold rc.
  destruct (rateHeaders_lookup rc) as (Hl & Hr & Ht).
  destruct (RateCheck.allowed rc).
  - split; [apply handleChat_responds|].
    intros st hs Hhead.
    destruct (stable_head _ _ (preserves_handleChat req
                (letThrough rc (checkRateLimit now (getClientIP req) store).2)))
      as [E|(st' & hs' & Hin & E)]; rewrite E in Hhead; simpl in Hhead; [done|].
    inversion Hhead; subst st hs.
    rewrite !lookup_union_r by (apply (replies_plain st'); auto).
    repeat split; auto; lia.
  - split; [simpl; eauto|].
    intros st hs Hhead. simpl in Hhead. inversion Hhead; subst st hs.
    rewrite !lookup_union_r by reflexivity.
    rewrite !lookup_insert_ne by done.
    repeat split; auto; lia.
Qed.

(** ** C8: the client address *)

(** C8.  The client address [getClientIP] returns, which is the key the
    listener gives to the rate limiter, is the trimmed text before the
    first comma of [X-Forwarded-For] when that header is a string;
    otherwise the trimmed [X-Real-IP] when that header is a string;
    otherwise the remote address of the socket; otherwise the literal
    [unknown]. *)
Theorem C8_client_address_resolution `{Config} `{Platform} req :
  getClientIP req = resolveClientIP req
  ∧ ∀ now now' store,
      isChat req = true →
      rateLimitStore (serve now now' req store).2
      = (checkRateLimit now (resolveClientIP req) store).2.
Proof.
  assert (E : getClientIP req = resolveClientIP req).
  { unfold getClientIP, resolveClientIP, headerString, socketAddress.
    destruct (headers req !! "x-forwarded-for") as [[forwarded|l]|];
      rewrite ?split_first;
      destruct (headers req !! "x-real-ip") as [[realIp|l']|];
      destruct (remoteAddress req) as [[|c a]|]; reflexivity. }
  split; [exact E|].
  intros now now' store Hchat. by rewrite serve_store, Hchat, E.
Qed.

(** ** C4: the store mode *)

(** C4, amended.  [detectStoreMode] answers [upstash] if and only if
    [UPSTASH_VECTOR_REST_URL] and [UPSTASH_VECTOR_REST_TOKEN] are both
    set to a non-empty value, and [lancedb] in every other case. *)
Theorem C4_upstash_iff_both_non_empty (env : Env) :
  (StoreFactory.detectStoreMode env = StoreFactory.upstash
   ↔ nonEmpty env "UPSTASH_VECTOR_REST_URL" ∧ nonEmpty env "UPSTASH_VECTOR_REST_TOKEN")
  ∧ (StoreFactory.detectStoreMode env = StoreFactory.lancedb
     ↔ ¬ (nonEmpty env "UPSTASH_VECTOR_REST_URL"
          ∧ nonEmpty env "UPSTASH_VECTOR_REST_TOKEN")).
Proof.
  rewrite <- !isSet_nonEmpty. unfold StoreFactory.detectStoreMode, js_and.
  destruct (isSet (env !! "UPSTASH_VECTOR_REST_URL")) eqn:Eurl;
    [destruct (isSet (env !! "UPSTASH_VECTOR_REST_TOKEN")) eqn:Etok|rewrite Eurl];
    intuition congruence.
Qed.

(** With the address of the service set to the empty string and the
    token set, both variables are present and the mode is [lancedb]. *)
Lemma C4_counterexample :
  let env : Env :=
    {[ "UPSTASH_VECTOR_REST_URL" := ""; "UPSTASH_VECTOR_REST_TOKEN" := "token" ]} in
  present env "UPSTASH_VECTOR_REST_URL"
  ∧ present env "UPSTASH_VECTOR_REST_TOKEN"
  ∧ StoreFactory.detectStoreMode env = StoreFactory.lancedb.
Proof. vm_compute. repeat split; eauto. Qed.

(** ** C5: the store of the server *)

(** C5, amended.  Once started, the server runs on the local backend,
    which it constructs itself and not through the store factory: with
    the dimensions of the embeddings client, 3072, whatever
    [detectStoreMode] answers, and rooted at [DOCS_CHAT_DB] when that is
    set to a non-empty path.  [createStore] with no argument, in local
    mode, produces the local backend rooted at [.lancedb] under the
    installation directory, with dimension 3072.  When [DOCS_CHAT_DB] is
    set to a non-empty path, the store of the server is the one
    [createStore] produces for the local mode and that path. *)
Theorem C5_server_store_is_local (root : list string) (env : Env) :
  isSet (env !! "OPENAI_API_KEY") = true →
  (∃ dbPath,
     Startup.store root env = Some (LanceDocsStore dbPath 3072)
     ∧ ∀ p, env !! "DOCS_CHAT_DB" = Some p → p ≠ "" → dbPath = p)
  ∧ (StoreFactory.detectStoreMode env = StoreFactory.upstash →
     Startup.store root env ≠ Some (StoreFactory.createStore root None None env).1)
  ∧ (StoreFactory.detectStoreMode env = StoreFactory.lancedb →
     StoreFactory.createStore root None None env
     = (LanceDocsStore (render (root ++ [".lancedb"])) 3072, StoreFactory.lancedb))
  ∧ (∀ p, env !! "DOCS_CHAT_DB" = Some p → p ≠ "" →
     Startup.store root env
     = Some (StoreFactory.createStore root (Some StoreFactory.lancedb) (Some p) env).1).
Proof.
  intros Hkey. unfold Startup.store. rewrite Hkey.
  assert (Hdb : ∀ p, env !! "DOCS_CHAT_DB" = Some p → p ≠ "" → Startup.dbPath root env = p).
  { intros p Hp Hne. unfold Startup.dbPath, js_or, isSet. rewrite Hp.
    by rewrite bool_decide_eq_false_2. }
  split; [|split; [|split]].
  - exists (Startup.dbPath root env). split; [done|exact Hdb].
  - intros Hmode. unfold StoreFactory.createStore. simpl. by rewrite Hmode.
  - intros Hmode. unfold StoreFactory.createStore. simpl. rewrite Hmode.
    unfold StoreFactory.DEFAULT_LANCEDB_PATH, StoreFactory.__dirname, path_resolve.
    simpl. by rewrite removelast_last.
  - intros p Hp Hne. simpl. by rewrite (Hdb p).
Qed.

Lemma C5_witness :
  let env : Env := {[ "OPENAI_API_KEY" := "sk-test"; "DOCS_CHAT_DB" := "/var/docs-db" ]} in
  isSet (env !! "OPENAI_API_KEY") = true
  ∧ Startup.store ["srv"; "docs-chat"] env
    = Some (StoreFactory.createStore ["srv"; "docs-chat"]
              (Some StoreFactory.lancedb) (Some "/var/docs-db") env).1.
Proof.
  intros env. split; [reflexivity|].
  apply (C5_server_store_is_local ["srv"; "docs-chat"] env eq_refl);
    [reflexivity|discriminate].
Defined.

(** With [DOCS_CHAT_DB] unset and no cloud credentials, the server opens
    [.lance-db] and the factory [.lancedb]. *)
Lemma C5_counterexample :
  let root := ["srv"; "scripts"; "docs-chat"] in
  let env : Env := {[ "OPENAI_API_KEY" := "sk-test" ]} in
  env !! "DOCS_CHAT_DB" = None
  ∧ StoreFactory.detectStoreMode env = StoreFactory.lancedb
  ∧ Startup.store root env
    = Some (LanceDocsStore "/srv/scripts/docs-chat/.lance-db" 3072)
  ∧ StoreFactory.createStore root None None env
    = (LanceDocsStore "/srv/scripts/docs-chat/.lancedb" 3072, StoreFactory.lancedb)
  ∧ Startup.store root env ≠ Some (StoreFactory.createStore root None None env).1.
Proof. vm_compute. repeat split; discriminate. Qed.


(** * The claims on worked instances *)

(** With a limit of 2: a first request, a second one, a sweep and a
    request of another client, all inside the window; the third request
    of the client is answered 429 and told to retry in 11 seconds. *)
Lemma C1_witness :
  let ip := js "127.0.0.1" in
  let other := post {[ "x-real-ip" := HdrString (js "10.1.1.1") ]} [] in
  let history := [Incoming 2000 2001 (post ∅ []); Sweep 30000; Incoming 40000 40000 other] in
  let store' :=
    @run (limit 2) (demoPlatform (Some [])) (Incoming 1000 1000 (post ∅ []) :: history) ∅ in
  let out := @serve (limit 2) (demoPlatform (Some [])) 50000 50001 (post ∅ []) store' in
  1 ≤ @RATE_LIMIT (limit 2)
  ∧ chatOf ip (Incoming 1000 1000 (post ∅ [])) = true
  ∧ fresh 1000 ip ∅
  ∧ forallb (inWindow ip (1000 + @RATE_WINDOW_MS (limit 2))) history = true
  ∧ status out = Some 429
  ∧ sentHeaders out !! "Retry-After" = Some (HNum 11)
  ∧ rateLimitStore out.2 = store'.
Proof.
  intros ip other history store' out.
  assert (H1 : 1 ≤ @RATE_LIMIT (limit 2)) by (vm_compute; discriminate).
  assert (H2 : chatOf ip (Incoming 1000 1000 (post ∅ [])) = true) by reflexivity.
  assert (H3 : fresh 1000 ip ∅) by (vm_compute; exact I).
  assert (H4 : forallb (inWindow ip (1000 + @RATE_WINDOW_MS (limit 2))) history = true)
    by reflexivity.
  repeat (split; [assumption|]).
  destruct (@C1_rate_limit_window (limit 2) (demoPlatform (Some [])) ip ∅ 1000 1000
              (post ∅ []) history H1 H2 H3 H4) as [_ Hnext].
  assert (H5 : chatOf ip (Incoming 50000 50001 (post ∅ [])) = true) by reflexivity.
  destruct (Hnext 50000 50001 (post ∅ []) H5) as (_ & Hfull & _).
  unfold out, store'. rewrite Hfull; [|vm_compute; discriminate|vm_compute; discriminate].
  repeat split.
Defined.

(** With a limit of 0 the first request of a window, which is request
    number [RATE_LIMIT + 1], is accepted and answered 200. *)
Lemma C1_counterexample :
  let req := post ∅ [bytesq "{'message': 'How do I configure the gateway?'}"] in
  @RATE_LIMIT (limit 0) = 0
  ∧ fresh 1000 (getClientIP req) ∅
  ∧ RateCheck.allowed (@checkRateLimit (limit 0) 1000 (getClientIP req) ∅).1 = true
  ∧ status (@serve (limit 0) (demoPlatform (Some [])) 1000 1000 req ∅) = Some 200.
Proof. vm_compute. repeat split. Qed.

(** A message of blanks is a bad request, answered 400. *)
Lemma C2_witness :
  let plat := demoPlatform (Some []) in
  let req := post ∅ [bytesq "{'message': '   '}"] in
  let out := @serve (limit 20) plat 1000 1000 req ∅ in
  @JSON_parse plat [] = None
  ∧ @JSON_parse plat (js "{}") = Some (JObj [])
  ∧ isChat req = true
  ∧ RateCheck.allowed (@checkRateLimit (limit 20) 1000 (getClientIP req) ∅).1 = true
  ∧ bodyBytes req ≤ MAX_BODY_SIZE
  ∧ (status out = Some 400 ↔ @badRequest plat (@bodyText plat req))
  ∧ status out = Some 400.
Proof.
  intros plat req out.
  assert (H1 : @JSON_parse plat [] = None) by reflexivity.
  assert (H2 : @JSON_parse plat (js "{}") = Some (JObj [])) by reflexivity.
  assert (H3 : isChat req = true) by reflexivity.
  assert (H4 : RateCheck.allowed
                 (@checkRateLimit (limit 20) 1000 (getClientIP req) ∅).1 = true)
    by reflexivity.
  assert (H5 : bodyBytes req ≤ MAX_BODY_SIZE) by (vm_compute; discriminate).
  repeat (split; [assumption|]).
  pose proof (proj1 (@C2_status_400_iff_bad_request (limit 20) plat 1000 1000 req ∅
                       H1 H2 H3 H4 H5)) as Hiff.
  split; [exact Hiff|]. apply Hiff. vm_compute. left. reflexivity.
Defined.

(** A body of 8193 bytes that is no JSON is answered 413, not 400; and a
    request over the rate limit with a body that is no JSON is answered
    429, not 400. *)
Lemma C2_counterexample :
  let plat := demoPlatform (Some []) in
  let large := post ∅ [replicate (Z.to_nat 8193) Byte.x78] in
  let small := post ∅ [bytes "not json"] in
  @badRequest plat (@bodyText plat large)
  ∧ status (@serve (limit 20) plat 1000 1000 large ∅) = Some 413
  ∧ @badRequest plat (@bodyText plat small)
  ∧ status (@serve (limit 1) plat 2000 2000 small
              (@run (limit 1) plat [Incoming 1000 1000 small] ∅)) = Some 429.
Proof. vm_compute. repeat split. Qed.

(** Chunks of 8000, 193 and 7 bytes: the second one passes the limit and
    the third is never read. *)
Lemma C3_witness :
  let req := post ∅ [replicate (Z.to_nat 8000) Byte.x20; replicate 193 Byte.x20; bytes "ignored"] in
  MAX_BODY_SIZE < bodyBytes req
  ∧ ∃ before chunk rest,
      chunks req = before ++ chunk :: rest
      ∧ chunkBytes before ≤ MAX_BODY_SIZE
      ∧ MAX_BODY_SIZE < chunkBytes (before ++ [chunk])
      ∧ @handleChat (demoPlatform (Some [])) req idle =
          (Fulfilled (),
           errorReply 413 (js "Request too large")
             (logged (ReadChunk <$> (before ++ [chunk])) idle)).
Proof.
  intros req.
  assert (H1 : MAX_BODY_SIZE < bodyBytes req) by (vm_compute; reflexivity).
  split; [exact H1|].
  exact (proj1 (@C3_oversized_body_is_rejected_unparsed (demoPlatform (Some [])) req idle) H1).
Defined.

(** The second request under a limit of 1 is answered 429 with the three
    headers, the remaining count 0. *)
Lemma C6_witness :
  let plat := demoPlatform (Some []) in
  let req := post ∅ [] in
  let store := @run (limit 1) plat [Incoming 1000 1000 req] ∅ in
  let out := @serve (limit 1) plat 2000 2000 req store in
  isChat req = true
  ∧ ∃ hs, res_head (res out.2) = Some (429, hs)
          ∧ hs !! "X-RateLimit-Limit" = Some (HNum 1)
          ∧ hs !! "X-RateLimit-Remaining" = Some (HNum 0)
          ∧ hs !! "X-RateLimit-Reset" = Some (HNum 61).
Proof.
  intros plat req store out.
  assert (H1 : isChat req = true) by reflexivity.
  split; [exact H1|].
  destruct (res_head (res out.2)) as [[st hs]|] eqn:E; [|vm_compute in E; discriminate].
  assert (st = 429) as -> by (vm_compute in E; congruence).
  exists hs. split; [reflexivity|].
  destruct (proj2 (@C6_every_chat_response_has_rate_headers (limit 1) plat 2000 2000
                     req store H1) 429 hs E) as (Hl & Hr & _ & Ht).
  repeat split; [exact Hl|exact Hr|exact Ht].
Defined.

(** A question the retriever finds nothing for. *)
Lemma C7_witness :
  let plat := demoPlatform (Some []) in
  let req := post ∅ [bytesq "{'message': ' How do I configure the gateway? '}"] in
  let m := js "How do I configure the gateway?" in
  let out := @serve (limit 20) plat 1000 1000 req ∅ in
  @JSON_parse plat [] = None
  ∧ bodyBytes req ≤ MAX_BODY_SIZE
  ∧ @validRequest plat (@bodyText plat req) m
  ∧ @retriever_retrieve plat m 8 = Some []
  ∧ status out = Some 200
  ∧ res_body (res out.2) = [Text apology].
Proof.
  intros plat req m out.
  assert (H1 : @JSON_parse plat [] = None) by reflexivity.
  assert (H2 : bodyBytes req ≤ MAX_BODY_SIZE) by (vm_compute; discriminate).
  assert (H3 : @validRequest plat (@bodyText plat req) m).
  { eexists _, _. split; [vm_compute; reflexivity|].
    split; [vm_compute; reflexivity|]. split; [vm_compute; reflexivity|].
    vm_compute. split; discriminate. }
  assert (H4 : @retriever_retrieve plat m 8 = Some []) by reflexivity.
  repeat (split; [assumption|]).
  assert (H5 : isChat req = true) by reflexivity.
  assert (H6 : RateCheck.allowed
                 (@checkRateLimit (limit 20) 1000 (getClientIP req) ∅).1 = true)
    by reflexivity.
  destruct (proj2 (@C7_no_results_is_an_apology (limit 20) plat req m H1 H2 H3 H4)
              1000 1000 ∅ H5 H6) as (_ & Hst & _ & Hbody & _).
  split; [exact Hst|exact Hbody].
Defined.

(** A request of two chunks of no bytes. *)
Lemma C10_witness :
  let plat := demoPlatform (Some []) in
  let req := post ∅ [[]; []] in
  @Buffer_toString plat [] = []
  ∧ @JSON_parse plat (js "{}") = Some (JObj [])
  ∧ bodyBytes req = 0
  ∧ @handleChat plat req idle =
      (Fulfilled (),
       errorReply 400 (js "message required")
         (logged [ReadChunk []; ReadChunk []; ParseJson (js "{}")] idle)).
Proof.
  intros plat req.
  assert (H1 : @Buffer_toString plat [] = []) by reflexivity.
  assert (H2 : @JSON_parse plat (js "{}") = Some (JObj [])) by reflexivity.
  assert (H3 : bodyBytes req = 0) by reflexivity.
  repeat (split; [assumption|]).
  exact (proj1 (@C10_empty_body_is_message_required plat req idle H1 H2 H3)).
Defined.

(** A request that came through two proxies is counted under the first
    address of [X-Forwarded-For]. *)
Lemma C8_witness :
  let plat := demoPlatform (Some []) in
  let req :=
    post {[ "x-forwarded-for" := HdrString (js " 203.0.113.7 , 10.0.0.1");
            "x-real-ip" := HdrString (js "10.0.0.1") ]} [] in
  isChat req = true
  ∧ getClientIP req = js "203.0.113.7"
  ∧ rateLimitStore (@serve (limit 20) plat 1000 1000 req ∅).2
    = {[ js "203.0.113.7" := {| count := 1; resetAt := 61000 |} ]}.
Proof.
  intros plat req.
  assert (H1 : isChat req = true) by reflexivity.
  split; [exact H1|].
  destruct (@C8_client_address_resolution (limit 20) plat req) as [Hip Hstore].
  split; [rewrite Hip; reflexivity|].
  rewrite (Hstore 1000 1000 ∅ H1). reflexivity.
Defined.


(** * Further properties *)

(** ** The rate limiter along arbitrary histories *)




Section Accounting.
Context `{Config} `{Platform}.



End Accounting.



(** ** Handlers that do not look at the store *)

Lemma sameResponse_refl w : sameResponse w w.
Proof. by split. Qed.

Lemma storeBlind_ret {A : Type} (a : A) : storeBlind (mret a).
Proof. intros w w' Hs. by split. Qed.

Lemma storeBlind_bind {A B : Type} (m : M A) (f : A → M B) :
  storeBlind m → (∀ a, storeBlind (f a)) → storeBlind (m ≫= f).
Proof.
  intros Hm Hf w w' Hs. rewrite !bind_run. destruct (Hm w w' Hs) as [E S].
  destruct (m w) as [[a|] w1], (m w') as [[a'|] w1']; simpl in *; try discriminate.
  - injection E as ->. by apply Hf.
  - by split.
Qed.

Lemma storeBlind_reject {A : Type} : storeBlind (@reject A).
Proof. intros w w' Hs. by split. Qed.

Lemma storeBlind_call c : storeBlind (call c).
Proof. intros w w' [Hr Hc]. split; [done|]. split; simpl; congruence. Qed.

Lemma storeBlind_withResponse f : storeBlind (withResponse f).
Proof. intros w w' [Hr Hc]. split; [done|]. split; simpl; congruence. Qed.

Lemma storeBlind_sendJson st body : storeBlind (sendJson st body).
Proof.
  apply storeBlind_bind; [apply storeBlind_withResponse|].
  intros _. apply storeBlind_withResponse.
Qed.

Lemma storeBlind_mapM {A B : Type} (f : A → M B) (l : list A) :
  (∀ a, storeBlind (f a)) → storeBlind (mapM f l).
Proof.
  intros Hf. induction l as [|a l IH]; simpl.
  - apply storeBlind_ret.
  - apply storeBlind_bind; [apply Hf|]. intros b.
    apply storeBlind_bind; [exact IH|]. intros bs. apply storeBlind_ret.
Qed.

Create HintDb blind.

#[local] Hint Resolve storeBlind_ret storeBlind_reject storeBlind_call
  storeBlind_sendJson storeBlind_mapM : blind.
#[local] Hint Extern 1 (storeBlind (writeHead _ _)) =>
  apply storeBlind_withResponse : blind.
#[local] Hint Extern 1 (storeBlind (write _)) =>
  apply storeBlind_withResponse : blind.
#[local] Hint Extern 1 (storeBlind (end_ _)) =>
  apply storeBlind_withResponse : blind.
#[local] Hint Extern 2 (storeBlind (_ ≫= _)) =>
  apply storeBlind_bind; [|intros ?] : blind.

Section Blind.
Context `{Config} `{Platform}.

Lemma storeBlind_readBody pending body bodySize :
  storeBlind (readBody pending body bodySize).
Proof.
  revert body bodySize. induction pending as [|chunk rest IH]; intros; simpl.
  - auto with blind.
  - apply storeBlind_bind; [auto with blind|]. intros _.
    destruct (_ >? _); [|apply IH]. auto with blind.
Qed.

Lemma storeBlind_reply message : storeBlind (reply message).
Proof.
  unfold reply. apply storeBlind_bind; [auto with blind|]. intros _.
  destruct (retriever_retrieve _ _) as [[|result results]|]; [| |auto with blind].
  - auto with blind.
  - apply storeBlind_bind; [auto with blind|]. intros _.
    apply storeBlind_bind; [auto with blind|]. intros _.
    destruct (streamOpenAI _ _) as [tokens ok].
    apply storeBlind_bind; [auto with blind|]. intros _.
    destruct ok; auto with blind.
Qed.

Lemma storeBlind_answer body : storeBlind (answer body).
Proof.
  unfold answer. apply storeBlind_bind; [auto with blind|]. intros _.
  destruct (JSON_parse _) as [parsed|]; [|auto with blind].
  destruct (getProperty _ _) as [|message]; [auto with blind|].
  destruct (_ || _); [auto with blind|].
  destruct (bool_decide _); [auto with blind|].
  destruct (_ >? _); [auto with blind|].
  apply storeBlind_reply.
Qed.

Lemma storeBlind_handleChat req : storeBlind (handleChat req).
Proof.
  unfold handleChat. apply storeBlind_bind; [apply storeBlind_readBody|].
  intros [body|]; [apply storeBlind_answer|apply storeBlind_ret].
Qed.

(** What a client sees of a [POST /chat] request is decided by the
    limiter's answer alone. *)
Lemma serve_decided now now' req store store' :
  isChat req = true →
  (checkRateLimit now (getClientIP req) store).1
  = (checkRateLimit now (getClientIP req) store').1 →
  observed (serve now now' req store) = observed (serve now now' req store').
Proof.
  intros Hchat Hrc. rewrite !serve_chat by done. simpl. rewrite <- Hrc.
  destruct (RateCheck.allowed _); [|done].
  unfold observed.
  edestruct (storeBlind_handleChat req) as [E [Hr Hc]]; [|by rewrite E, Hr, Hc].
  by split.
Qed.

(** The other routes do not look at the store. *)
Lemma serve_plain now now' req store store' :
  isChat req = false →
  observed (serve now now' req store) = observed (serve now now' req store').
Proof.
  intros Hchat. unfold serve, server. unfold isChat in Hchat. rewrite Hchat.
  destruct (bool_decide (method req = "OPTIONS")); [done|].
  destruct (bool_decide (method req = "GET") && _); [|done].
  rewrite !bind_run. simpl. by destruct store_count.
Qed.

Lemma checkRateLimit_decision now ip store store' :
  store !! ip = store' !! ip →
  (checkRateLimit now ip store).1 = (checkRateLimit now ip store').1.
Proof.
  intros Hlk. unfold checkRateLimit. rewrite <- Hlk.
  destruct (store !! ip) as [record|]; [|done].
  destruct (now >? resetAt record); [done|].
  by destruct (count record >=? RATE_LIMIT).
Qed.

Lemma sweep_decision now now' ip store :
  now' ≤ now →
  (checkRateLimit now ip (sweep now' store)).1 = (checkRateLimit now ip store).1.
Proof.
  intros Hle. destruct (store !! ip) as [record|] eqn:Hlk.
  - destruct (decide (now' ≤ resetAt record)) as [Hlive|Hdead].
    + apply checkRateLimit_decision. rewrite Hlk. by apply sweep_live.
    + assert (sweep now' store !! ip = None) as Hgone.
      { unfold sweep. apply map_lookup_filter_None. right. intros r Hr.
        rewrite Hlk in Hr. injection Hr as <-. simpl. lia. }
      rewrite (checkRateLimit_fresh now ip (sweep now' store))
        by (unfold fresh; by rewrite Hgone).
      rewrite (checkRateLimit_fresh now ip store)
        by (unfold fresh; rewrite Hlk; lia).
      done.
  - apply checkRateLimit_decision. rewrite Hlk. unfold sweep.
    apply map_lookup_filter_None. by left.
Qed.

End Blind.

(** X3.  Clients are counted apart.  A request changes no record but the
    one of its own client, and only a [POST /chat] request changes any;
    and what a client sees of a request (the response, the platform
    calls, whether the listener returns) is the same in two stores that
    hold the same record for that client, whatever they hold for the
    others. *)
Theorem clients_are_isolated `{Config} `{Platform} now now' req store :
  (∀ ip, isChat req = false ∨ getClientIP req ≠ ip →
         rateLimitStore (serve now now' req store).2 !! ip = store !! ip)
  ∧ (∀ store', store !! getClientIP req = store' !! getClientIP req →
               observed (serve now now' req store) = observed (serve now now' req store')).
Proof.
  split.
  - intros ip Hother. rewrite serve_store.
    destruct (isChat req); [|done]. destruct Hother as [|Hne]; [done|].
    by apply checkRateLimit_other.
  - intros store' Hlk. destruct (isChat req) eqn:Hchat.
    + apply serve_decided; [done|]. by apply checkRateLimit_decision.
    + by apply serve_plain.
Qed.

(** ** Sweeps along a history *)

Section Sweeps.
Context `{Config} `{Platform}.

Lemma agreeFrom_refl t store : agreeFrom t store store.
Proof. by intros ip record _. Qed.

Lemma agreeFrom_later t now store store' :
  t ≤ now → agreeFrom t store store' → agreeFrom now store store'.
Proof. intros Hle Hag ip record Hlive. apply Hag. lia. Qed.

(** Stores that agree on the live records hold, for every client, the
    same record or two records that are over. *)
Lemma agreeFrom_lookup t now ip store store' :
  agreeFrom t store store' → t ≤ now →
  store !! ip = store' !! ip ∨ (fresh now ip store ∧ fresh now ip store').
Proof.
  intros Hag Hle. unfold fresh.
  destruct (store !! ip) as [r|] eqn:E, (store' !! ip) as [r'|] eqn:E'.
  - destruct (decide (t ≤ resetAt r)) as [Hl|Hd].
    + apply (Hag ip r Hl) in E. left. congruence.
    + destruct (decide (t ≤ resetAt r')) as [Hl'|Hd'].
      * apply (Hag ip r' Hl') in E'. left. congruence.
      * right. lia.
  - destruct (decide (t ≤ resetAt r)) as [Hl|Hd].
    + apply (Hag ip r Hl) in E. congruence.
    + right. split; [lia|done].
  - destruct (decide (t ≤ resetAt r')) as [Hl'|Hd'].
    + apply (Hag ip r' Hl') in E'. congruence.
    + right. split; [done|lia].
  - by left.
Qed.

Lemma checkRateLimit_same_record now ip store store' :
  store !! ip = store' !! ip →
  (checkRateLimit now ip store).2 !! ip = (checkRateLimit now ip store').2 !! ip.
Proof.
  intros Hlk. unfold checkRateLimit. rewrite <- Hlk.
  destruct (store !! ip) as [record|] eqn:E; simpl; [|by rewrite !lookup_insert_eq].
  destruct (now >? resetAt record); simpl; [by rewrite !lookup_insert_eq|].
  destruct (count record >=? RATE_LIMIT); simpl; [congruence|].
  by rewrite !lookup_insert_eq.
Qed.

Lemma agreeFrom_check t now ip store store' :
  agreeFrom t store store' → t ≤ now →
  (checkRateLimit now ip store).1 = (checkRateLimit now ip store').1
  ∧ agreeFrom now (checkRateLimit now ip store).2 (checkRateLimit now ip store').2.
Proof.
  intros Hag Hle.
  assert (Hsame : (checkRateLimit now ip store).1 = (checkRateLimit now ip store').1
                  ∧ (checkRateLimit now ip store).2 !! ip
                    = (checkRateLimit now ip store').2 !! ip).
  { destruct (agreeFrom_lookup t now ip store store' Hag Hle) as [Hlk|[Hf Hf']].
    - split; [by apply checkRateLimit_decision|by apply checkRateLimit_same_record].
    - rewrite (checkRateLimit_fresh _ _ _ Hf), (checkRateLimit_fresh _ _ _ Hf').
      simpl. by rewrite !lookup_insert_eq. }
  destruct Hsame as [Hrc Hrec]. split; [done|].
  intros j record Hlive. destruct (decide (ip = j)) as [<-|Hne].
  - by rewrite Hrec.
  - rewrite !checkRateLimit_other by done. apply Hag. lia.
Qed.

Lemma agreeFrom_sweep t now store store' :
  agreeFrom t store store' → t ≤ now → agreeFrom now (sweep now store) store'.
Proof.
  intros Hag Hle ip record Hlive. unfold sweep. rewrite map_lookup_filter_Some.
  simpl. rewrite <- (Hag ip record) by lia. intuition lia.
Qed.

(** Along a history whose clock does not run backwards, stores that
    agree on the live records give the same responses, with the sweeps of
    one of the histories left out. *)
Lemma responses_without_sweeps history : ∀ t store store',
  ordered t history → agreeFrom t store store' →
  responses history store = responses (filter isRequest history) store'.
Proof.
  induction history as [|e history IH]; intros t store store' Hord Hag; [done|].
  destruct Hord as [Hle Hord]. destruct e as [now now' req|now]; simpl in Hle, Hord.
  - rewrite filter_cons_True by exact I. cbn [responses step].
    destruct (isChat req) eqn:Hchat.
    + destruct (agreeFrom_check t now (getClientIP req) store store' Hag Hle)
        as [Hrc Hag'].
      f_equal; [by apply serve_decided|].
      apply (IH now); [done|]. by rewrite !serve_store, Hchat.
    + f_equal; [by apply serve_plain|].
      apply (IH now); [done|]. rewrite !serve_store, Hchat.
      by apply (agreeFrom_later t).
  - rewrite filter_cons_False by (by intros []). cbn [responses step].
    apply (IH now); [done|]. by apply (agreeFrom_sweep t).
Qed.

End Sweeps.

(** X4.  The sweep is not observable.  It deletes the records whose
    window is over and no other; and along any history whose clock does
    not run backwards, the clients get the same responses, request by
    request, as along the same history with every sweep left out. *)
Theorem sweep_is_unobservable `{Config} `{Platform} sweepTime store :
  (∀ ip record,
     sweep sweepTime store !! ip = Some record
     ↔ store !! ip = Some record ∧ sweepTime ≤ resetAt record)
  ∧ (∀ t history,
       ordered t history →
       responses history store = responses (filter isRequest history) store).
Proof.
  split.
  - intros ip record. unfold sweep. rewrite map_lookup_filter_Some. simpl.
    split; intros [? ?]; split; auto; lia.
  - intros t history Hord.
    apply (responses_without_sweeps history t); [done|apply agreeFrom_refl].
Qed.

(** ** The routes *)

Section Routes.
Context `{Config} `{Platform}.

Lemma serve_options now now' req store :
  isOptions req = true →
  serve now now' req store =
    (Fulfilled (),
     {| rateLimitStore := store;
        res := {| res_headers := ∅; res_head := Some (204, corsHeaders ∪ ∅);
                  res_body := []; res_ended := true |};
        calls := [] |}).
Proof. intros Ho. unfold serve, server. unfold isOptions in Ho. by rewrite Ho. Qed.

Lemma serve_health now now' req store :
  isOptions req = false → isHealth req = true →
  serve now now' req store =
    match store_count with
    | None => (Rejected, {| rateLimitStore := store; res := newResponse; calls := [StoreCount] |})
    | Some n =>
        (Fulfilled (),
         replied 200 jsonHeaders
           [Stringify (JObj [(js "ok", JBool true); (js "chunks", JNum n 0);
                             (js "mode", JStr (js "vector"))])]
           {| rateLimitStore := store; res := newResponse; calls := [StoreCount] |})
    end.
Proof.
  intros Ho Hh. unfold serve, server. unfold isOptions in Ho. unfold isHealth in Hh.
  rewrite Ho, Hh, bind_run. simpl. by destruct store_count.
Qed.

Lemma serve_not_found now now' req store :
  isOptions req = false → isHealth req = false → isChat req = false →
  serve now now' req store =
    (Fulfilled (),
     errorReply 404 (js "Not found")
       {| rateLimitStore := store; res := newResponse; calls := [] |}).
Proof.
  intros Ho Hh Hc. unfold serve, server.
  unfold isOptions in Ho. unfold isHealth in Hh. unfold isChat in Hc.
  by rewrite Ho, Hh, Hc.
Qed.

Lemma routes_exclusive req :
  (isOptions req = true → isHealth req = false ∧ isChat req = false)
  ∧ (isHealth req = true → isChat req = false).
Proof.
  unfold isOptions, isHealth, isChat.
  destruct (decide (method req = "OPTIONS")) as [E|E].
  - rewrite E. simpl. by repeat split.
  - rewrite (bool_decide_eq_false_2 _ E). split; [done|].
    destruct (decide (method req = "GET")) as [E'|E'].
    + rewrite E'. by simpl.
    + by rewrite (bool_decide_eq_false_2 _ E').
Qed.

End Routes.

(** X5.  The routes of the listener.  The status is 204 exactly for the
    [OPTIONS] requests, whatever their path; 404 exactly for the requests
    that are neither [OPTIONS], nor [GET /] or [GET /health], nor
    [POST /chat]; 429 exactly for the [POST /chat] requests the limiter
    refuses.  A health request is answered 200 or, when the count of the
    store fails, not at all.  No response has another status than 200,
    204, 400, 404, 413 or 429, and only [POST /chat] touches the
    rate-limit store. *)
Theorem listener_routes `{Config} `{Platform} now now' req store :
  let out := serve now now' req store in
  (status out = Some 204 ↔ method req = "OPTIONS")
  ∧ (status out = Some 404
     ↔ isOptions req = false ∧ isHealth req = false ∧ isChat req = false)
  ∧ (status out = Some 429
     ↔ isChat req = true
       ∧ RateCheck.allowed (checkRateLimit now (getClientIP req) store).1 = false)
  ∧ (isHealth req = true →
     status out = match store_count with Some _ => Some 200 | None => None end)
  ∧ (status out = None ∨ status out = Some 200 ∨ status out = Some 204
     ∨ status out = Some 400 ∨ status out = Some 404 ∨ status out = Some 413
     ∨ status out = Some 429)
  ∧ (isChat req = false → rateLimitStore out.2 = store).
Proof.
  intros out. unfold out.
  destruct (routes_exclusive req) as [Hexo Hexh].
  assert (Hmeth : isOptions req = true ↔ method req = "OPTIONS")
    by apply bool_decide_eq_true.
  destruct (isOptions req) eqn:Ho.
  { destruct Hexo as [Hh Hc]; [done|]. rewrite serve_options by done.
    rewrite Hh, Hc. unfold status. simpl.
    repeat split; try (intros; discriminate); try tauto; try (by apply Hmeth).
    - intros [? _]; discriminate.
    - intros [? _]; discriminate. }
  assert (Hno : method req ≠ "OPTIONS") by (intros E; apply Hmeth in E; discriminate).
  destruct (isHealth req) eqn:Hh.
  { rewrite serve_health by done. rewrite (Hexh eq_refl).
    destruct store_count; unfold status; simpl;
      repeat split; try (intros; discriminate); try tauto;
      try (intros [? _]; discriminate); try (intros (? & ? & ?); discriminate). }
  destruct (isChat req) eqn:Hc.
  - rewrite serve_store, Hc. rewrite serve_chat by done. simpl.
    destruct (RateCheck.allowed _) eqn:Ha.
    + destruct (handleChat_status req (checkRateLimit now (getClientIP req) store).1
                  (checkRateLimit now (getClientIP req) store).2) as [E|[E|[E|E]]];
        simpl in E; rewrite E;
        repeat split; try (intros; discriminate); try tauto;
        try (intros [? ?]; discriminate); try (intros (? & ? & ?); discriminate).
    + unfold status. simpl.
      repeat split; try (intros; discriminate); try tauto;
        try (intros (? & ? & ?); discriminate).
  - rewrite serve_not_found by done. unfold status. simpl.
    repeat split; try (intros; discriminate); try tauto;
      try (intros [? ?]; discriminate).
Qed.

Lemma replies_cors st hs :
  (st, hs) ∈ replies →
  hs !! "Access-Control-Allow-Origin" = Some (HStr "*")
  ∧ hs !! "Access-Control-Allow-Methods" = Some (HStr "GET, POST, OPTIONS")
  ∧ hs !! "Access-Control-Allow-Headers" = Some (HStr "Content-Type")
  ∧ is_Some (hs !! "Content-Type").
Proof.
  unfold replies. rewrite !elem_of_cons, elem_of_nil.
  intros [E|[E|[E|[E|[]]]]]; inversion E; subst; repeat split; eauto.
Qed.

(** X6.  Every response of the listener, on every route and with every
    status, carries the three CORS headers with their fixed values, and
    every response but the 204 of [OPTIONS] carries a [Content-Type]. *)
Theorem every_response_has_cors_headers `{Config} `{Platform}
    now now' req store st hs :
  res_head (res (serve now now' req store).2) = Some (st, hs) →
  hs !! "Access-Control-Allow-Origin" = Some (HStr "*")
  ∧ hs !! "Access-Control-Allow-Methods" = Some (HStr "GET, POST, OPTIONS")
  ∧ hs !! "Access-Control-Allow-Headers" = Some (HStr "Content-Type")
  ∧ (st ≠ 204 → is_Some (hs !! "Content-Type")).
Proof.
  assert (Hjson : (400, jsonHeaders) ∈ replies) by in_replies.
  destruct (replies_cors _ _ Hjson) as (J1 & J2 & J3 & J4).
  destruct (isOptions req) eqn:Ho.
  { rewrite serve_options by done. simpl. intros [= <- <-].
    repeat split; try reflexivity. intros []; reflexivity. }
  destruct (isHealth req) eqn:Hh.
  { rewrite serve_health by done. destruct store_count; simpl; [|done].
    intros [= <- <-]. rewrite !(lookup_union_l' _ ∅) by eauto. by repeat split. }
  destruct (isChat req) eqn:Hc.
  - rewrite serve_chat by done. simpl. destruct (RateCheck.allowed _).
    + intros Hhead.
      destruct (stable_head _ _ (preserves_handleChat req
                  (letThrough (checkRateLimit now (getClientIP req) store).1
                     (checkRateLimit now (getClientIP req) store).2)))
        as [E|(st' & hs' & Hin & E)]; rewrite E in Hhead; simpl in Hhead; [done|].
      injection Hhead as <- <-.
      destruct (replies_cors _ _ Hin) as (R1 & R2 & R3 & R4).
      rewrite !lookup_union_l' by eauto. by repeat split.
    + simpl. intros [= <- <-]. rewrite !lookup_union_l' by eauto. by repeat split.
  - rewrite serve_not_found by done. simpl. intros [= <- <-].
    rewrite !(lookup_union_l' _ (res_headers newResponse)) by eauto. by repeat split.
Qed.

(** ** The answers of [handleChat] *)

Section Answers.
Context `{Config} `{Platform}.

Lemma validRequest_unique text m m' :
  validRequest text m → validRequest text m' → m = m'.
Proof.
  intros (v & s & Hp & Hm & <- & _) (v' & s' & Hp' & Hm' & <- & _).
  congruence.
Qed.

Lemma answer_bad_text text w :
  badRequest (parsedText text) →
  answer text w =
    (Fulfilled (),
     errorReply 400 (errorFor (parsedText text)) (logged [ParseJson (parsedText text)] w)).
Proof.
  unfold badRequest, errorFor, answer. fold (parsedText text). intros Hbad.
  rewrite bind_run. simpl.
  destruct (JSON_parse (parsedText text)) as [v|]; [|done].
  destruct v as [|b|n e|s|items|members]; simpl in *; try done.
  destruct (getOwn (js "message") members) as [[|b|n e|m|items|ms]|];
    simpl; try done.
  - by destruct b.
  - by destruct (negb (n =? 0)).
  - destruct (decide (m = [])) as [->|Hm]; [done|].
    rewrite (bool_decide_eq_false_2 _ Hm). simpl.
    destruct (decide (trim m = [])) as [E|E].
    + by rewrite !(bool_decide_eq_true_2 _ E).
    + rewrite !(bool_decide_eq_false_2 _ E). destruct Hbad as [|Hlong]; [done|].
      destruct (Z.gtb_spec (Z.of_nat (length (trim m))) MAX_MESSAGE_LENGTH) as [_|Hle];
        [done|unfold MAX_MESSAGE_LENGTH in Hle; lia].
Qed.

(** All of [handleChat] for a body within the limit. *)
Lemma handleChat_cases req w :
  bodyBytes req ≤ MAX_BODY_SIZE →
  let text := parsedText (bodyText req) in
  let w' := logged ((ReadChunk <$> chunks req) ++ [ParseJson text]) w in
  (badRequest text
   ∧ handleChat req w = (Fulfilled (), errorReply 400 (errorFor text) w'))
  ∨ ∃ m, validRequest text m ∧ handleChat req w = reply m w'.
Proof.
  intros Hle text w'. rewrite handleChat_within by done.
  destruct (bad_or_valid text) as [Hbad|[m Hval]].
  - left. split; [done|]. rewrite answer_bad_text by done.
    unfold w'. by rewrite logged_logged.
  - right. exists m. split; [done|]. rewrite (answer_valid _ m) by done.
    unfold w'. by rewrite logged_logged.
Qed.

End Answers.

(** X7.  The error text of a bad request.  A body within the size limit
    that is a bad request is answered 400 with [Invalid JSON] when the
    text given to [JSON.parse] does not parse, and also when it is the
    valid JSON [null]; with the limit of 2000 characters when its message
    trims to a string that is too long; and with [message required] in
    every other case: a JSON value that is no object, an object without
    [message], a [message] that is no string, is empty or is blank. *)
Theorem bad_request_error_text `{Platform} req w :
  bodyBytes req ≤ MAX_BODY_SIZE →
  badRequest (parsedText (bodyText req)) →
  handleChat req w =
    (Fulfilled (),
     errorReply 400 (errorFor (parsedText (bodyText req)))
       (logged ((ReadChunk <$> chunks req) ++ [ParseJson (parsedText (bodyText req))]) w)).
Proof.
  intros Hle Hbad. destruct (handleChat_cases req w Hle) as [[_ E]|(m & Hval & _)];
    [exact E|]. by destruct (bad_not_valid _ m Hbad).
Qed.

(** X8.  The answer with excerpts.  For a valid request whose retrieval
    gives a non-empty sequence, [handleChat] answers 200 with a chunked
    [text/plain] body made of the tokens of the upstream call, in order;
    when that call fails the status stays 200, the tokens received so far
    stay, and the error marker is appended; the response is ended in both
    cases and the handler returns. *)
Theorem excerpts_are_streamed `{Platform} req m results tokens ok w :
  bodyBytes req ≤ MAX_BODY_SIZE →
  validRequest (parsedText (bodyText req)) m →
  retriever_retrieve m 8 = Some results →
  results ≠ [] →
  streamOpenAI (systemPromptFor results) m = (tokens, ok) →
  handleChat req w =
    (Fulfilled (),
     replied 200 streamHeaders
       ((Text <$> tokens)
        ++ (if ok then []
            else [Text ([newline; newline] ++ js "[Error contacting OpenAI]")]))
       (logged ((ReadChunk <$> chunks req)
                ++ [ParseJson (parsedText (bodyText req)); Retrieve m 8;
                    StreamOpenAI (systemPromptFor results) m]) w)).
Proof.
  intros Hle Hval Hres Hne Hstream.
  destruct (handleChat_cases req w Hle) as [[Hbad _]|(m' & Hval' & E)];
    [by destruct (bad_not_valid _ m Hbad)|].
  rewrite (validRequest_unique _ _ _ Hval' Hval) in E.
  rewrite E, reply_run, Hres. destruct results as [|result results]; [done|].
  unfold streamed. rewrite Hstream, !logged_logged, <- ?app_assoc. reflexivity.
Qed.

(** X9.  The platform calls of a request, in order.  A request the
    limiter refuses makes none: its body is not read.  For a body within
    the size limit [handleChat] reads every chunk, parses once, and stops
    there for a bad request; for a valid one it calls the retriever once,
    with the trimmed message and the limit 8, and calls the upstream once
    more only when the retrieval gave results, with the prompt built from
    them and the trimmed message. *)
Theorem platform_calls_in_order `{Config} `{Platform} now now' req store :
  (isChat req = true →
   RateCheck.allowed (checkRateLimit now (getClientIP req) store).1 = false →
   calls (serve now now' req store).2 = [])
  ∧ (bodyBytes req ≤ MAX_BODY_SIZE →
     ∀ w, ∃ tail,
       callsAfterReading (parsedText (bodyText req)) tail
       ∧ calls (handleChat req w).2 = calls w ++ (ReadChunk <$> chunks req) ++ tail).
Proof.
  split.
  - intros Hchat Hno. rewrite serve_chat by done. simpl. by rewrite Hno.
  - intros Hle w. unfold callsAfterReading.
    destruct (handleChat_cases req w Hle) as [[Hbad ->]|(m & Hval & ->)].
    + exists [ParseJson (parsedText (bodyText req))]. split; [by left|].
      simpl. rewrite <- ?app_assoc. reflexivity.
    + rewrite reply_run.
      destruct (retriever_retrieve m 8) as [[|result results]|] eqn:Hr;
        eexists; (split; [right; exists m; split; [done|]; rewrite Hr; reflexivity|]);
        simpl; rewrite <- ?app_assoc; reflexivity.
Qed.

(** X10.  When the listener fails.  With the body of the request read
    to its end, the listener rejects, with no status sent, nothing
    written and the response left open, in two cases and no other: a
    health request when the count of the store fails, and a [POST /chat]
    request let through by the limiter, within the size limit and valid,
    when the retriever fails.  Whenever it returns, a status has been
    sent and the response is ended. *)
Theorem listener_fails_only_with_its_stores `{Config} `{Platform} now now' req store :
  let out := serve now now' req store in
  (out.1 = Rejected
   ↔ (isHealth req = true ∧ store_count = None)
     ∨ (isChat req = true
        ∧ RateCheck.allowed (checkRateLimit now (getClientIP req) store).1 = true
        ∧ bodyBytes req ≤ MAX_BODY_SIZE
        ∧ ∃ m, validRequest (parsedText (bodyText req)) m
               ∧ retriever_retrieve m 8 = None))
  ∧ (out.1 = Rejected →
     res_head (res out.2) = None ∧ res_body (res out.2) = []
     ∧ res_ended (res out.2) = false)
  ∧ (out.1 = Fulfilled () →
     is_Some (res_head (res out.2)) ∧ res_ended (res out.2) = true).
Proof.
  intros out. unfold out. destruct (routes_exclusive req) as [Hexo Hexh].
  destruct (isOptions req) eqn:Ho.
  { destruct Hexo as [Hh Hc]; [done|]. rewrite serve_options, Hh, Hc by done. simpl.
    split; [|split]; [split|done|eauto].
    - discriminate.
    - intros [[? _]|[? _]]; discriminate. }
  destruct (isHealth req) eqn:Hh.
  { rewrite serve_health, (Hexh eq_refl) by done. destruct store_count; simpl.
    - split; [|split]; [split|done|eauto]; [discriminate|].
      intros [[_ ?]|[? _]]; discriminate.
    - split; [|split]; [split|done|discriminate]; auto. }
  destruct (isChat req) eqn:Hc; [|rewrite serve_not_found by done; simpl].
  2: { split; [|split]; [split|done|eauto]; [discriminate|].
       intros [[? _]|[? _]]; discriminate. }
  rewrite serve_chat by done. simpl.
  destruct (RateCheck.allowed _) eqn:Ha; simpl.
  2: { split; [|split]; [split|done|eauto]; [discriminate|].
       intros [[? _]|(_ & ? & _)]; discriminate. }
  destruct (decide (bodyBytes req ≤ MAX_BODY_SIZE)) as [Hle|Hgt].
  - destruct (handleChat_cases req
                (letThrough (checkRateLimit now (getClientIP req) store).1
                   (checkRateLimit now (getClientIP req) store).2) Hle)
      as [[Hbad ->]|(m & Hval & ->)]; simpl.
    + split; [|split]; [split|done|eauto]; [discriminate|].
      intros [[? _]|(_ & _ & _ & m & Hval & _)]; [discriminate|].
      by destruct (bad_not_valid _ m Hbad).
    + rewrite reply_run.
      destruct (retriever_retrieve m 8) as [[|result results]|] eqn:Hr; simpl.
      * split; [|split]; [split|done|eauto]; [discriminate|].
        intros [[? _]|(_ & _ & _ & m' & Hval' & Hr')]; [discriminate|].
        rewrite (validRequest_unique _ _ _ Hval' Hval) in Hr'. congruence.
      * split; [|split]; [split|done|eauto]; [discriminate|].
        intros [[? _]|(_ & _ & _ & m' & Hval' & Hr')]; [discriminate|].
        rewrite (validRequest_unique _ _ _ Hval' Hval) in Hr'. congruence.
      * split; [|split]; [split|done|discriminate]; [|done].
        intros _. right. repeat split; auto. by exists m.
  - unfold handleChat. rewrite bind_run.
    destruct (readBody_over (chunks req) [] 0
                (letThrough (checkRateLimit now (getClientIP req) store).1
                   (checkRateLimit now (getClientIP req) store).2))
      as (b & c & r & _ & _ & _ & ->);
      [unfold MAX_BODY_SIZE; lia|unfold bodyBytes in Hgt; lia|]. simpl.
    split; [|split]; [split|done|eauto]; [discriminate|].
    intros [[? _]|(_ & _ & ? & _)]; [discriminate|lia].
Qed.

(** ** The lines of the upstream stream *)

Lemma split_nonempty sep s : split sep s ≠ [].
Proof.
  destruct s as [|c r]; simpl; [done|].
  destruct (c =? sep)%N; [done|]. by destruct (split sep r).
Qed.

Lemma split_cons_other sep c r :
  (c =? sep)%N = false →
  ∃ x xs, split sep r = x :: xs ∧ split sep (c :: r) = (c :: x) :: xs.
Proof.
  intros Hc. simpl. rewrite Hc. pose proof (split_nonempty sep r).
  destruct (split sep r) as [|x xs]; [done|]. by exists x, xs.
Qed.

(** Splitting a text continued by another: the complete pieces stay, the
    last piece is continued. *)
Lemma split_app sep s t :
  split sep (s ++ t)
  = removelast (split sep s) ++ split sep (default [] (last (split sep s)) ++ t).
Proof.
  induction s as [|c r IH]; [done|].
  destruct (c =? sep)%N eqn:Hc.
  - simpl. rewrite Hc, IH. pose proof (split_nonempty sep r).
    destruct (split sep r) as [|x xs] eqn:E; [done|]. reflexivity.
  - destruct (split_cons_other sep c r Hc) as (x & xs & E & E').
    rewrite E'. simpl ((c :: r) ++ t).
    destruct (split_cons_other sep c (r ++ t) Hc) as (y & ys & F & F').
    rewrite F'. rewrite IH, E in F. destruct xs as [|x' xs].
    + simpl in *. rewrite Hc, F. reflexivity.
    + simpl in F. injection F as <- <-. reflexivity.
Qed.

Lemma split_no_separator sep s : sep ∉ s → split sep s = [s].
Proof.
  induction s as [|c r IH]; [done|]. intros Hnot.
  apply not_elem_of_cons in Hnot as [Hne Hnot]. simpl.
  rewrite (proj2 (N.eqb_neq c sep)) by congruence. by rewrite IH.
Qed.

Lemma split_pieces sep s x : x ∈ split sep s → sep ∉ x.
Proof.
  revert x. induction s as [|c r IH]; intros x; simpl.
  - intros ->%list_elem_of_singleton. apply not_elem_of_nil.
  - destruct (N.eqb_spec c sep) as [->|Hne].
    + intros [->|Hin]%elem_of_cons; [apply not_elem_of_nil|by apply IH].
    + pose proof (split_nonempty sep r).
      destruct (split sep r) as [|y ys]; [done|].
      intros [->|Hin]%elem_of_cons.
      * apply not_elem_of_cons. split; [congruence|]. apply IH, list_elem_of_here.
      * apply IH. by apply list_elem_of_further.
Qed.

Lemma last_split_no_separator sep s : sep ∉ default [] (last (split sep s)).
Proof.
  pose proof (split_nonempty sep s).
  destruct (last (split sep s)) as [x|] eqn:E; [|apply not_elem_of_nil].
  simpl. apply (split_pieces sep s). by apply last_Some_elem_of.
Qed.

Lemma removelast_snoc {A : Type} (l : list A) (x : A) : removelast (l ++ [x]) = l.
Proof. apply removelast_last. Qed.

Lemma removelast_app_nonempty {A : Type} (l k : list A) :
  k ≠ [] → removelast (l ++ k) = l ++ removelast k.
Proof. intros Hk. by apply removelast_app. Qed.

Lemma completeLines_app s t :
  completeLines (s ++ t)
  = completeLines s ++ completeLines (default [] (last (split newline s)) ++ t).
Proof.
  unfold completeLines. rewrite split_app.
  apply removelast_app_nonempty, split_nonempty.
Qed.

(** Text after the last line feed is no complete line. *)
Lemma completeLines_tail s t :
  newline ∉ t → completeLines (s ++ t) = completeLines s.
Proof.
  intros Hnot. rewrite completeLines_app. unfold completeLines at 2.
  rewrite split_no_separator, app_nil_r; [done|].
  intros [Hin|Hin]%elem_of_app; [|done].
  by apply (last_split_no_separator newline s).
Qed.

Section Stream.
Variable JSON_parse : jsstring → option json.

Lemma readLines_app l1 l2 :
  OpenAI.readLines JSON_parse (l1 ++ l2) =
    let '(vs, done) := OpenAI.readLines JSON_parse l1 in
    if done then (vs, true)
    else let '(ws, done') := OpenAI.readLines JSON_parse l2 in (vs ++ ws, done').
Proof.
  induction l1 as [|text l1 IH]; simpl.
  - by destruct (OpenAI.readLines JSON_parse l2).
  - destruct (OpenAI.readLine JSON_parse text); [exact IH|done|].
    rewrite IH. destruct (OpenAI.readLines JSON_parse l1) as [vs [|]]; [done|].
    by destruct (OpenAI.readLines JSON_parse l2).
Qed.

(** The loop over the chunks reads the complete lines of the whole text,
    however the text is cut into chunks. *)
Lemma readChunks_lines pieces : ∀ buffer,
  newline ∉ buffer →
  OpenAI.readChunks JSON_parse pieces buffer
  = OpenAI.readLines JSON_parse (completeLines (buffer ++ concat pieces)).
Proof.
  induction pieces as [|piece rest IH]; intros buffer Hbuf.
  - simpl. rewrite app_nil_r. unfold completeLines.
    by rewrite split_no_separator.
  - simpl. rewrite app_assoc, completeLines_app, readLines_app.
    fold (completeLines (buffer ++ piece)).
    destruct (OpenAI.readLines JSON_parse (completeLines (buffer ++ piece)))
      as [vs [|]]; [done|].
    by rewrite IH by apply last_split_no_separator.
Qed.

Lemma readLine_delta_truthy text v :
  OpenAI.readLine JSON_parse text = OpenAI.Delta v → truthy (Some v) = true.
Proof.
  unfold OpenAI.readLine. destruct (negb _); [done|].
  destruct (bool_decide _); [done|]. destruct (JSON_parse _) as [json|]; [|done].
  destruct (getProperty _ _) as [|choices]; [done|].
  destruct (OpenAI.member _ _) as [d|] eqn:E; [|done].
  destruct (truthy (Some d)) eqn:Ht; [|done]. by intros [= <-].
Qed.

Lemma readLines_truthy lines v :
  v ∈ (OpenAI.readLines JSON_parse lines).1 → truthy (Some v) = true.
Proof.
  induction lines as [|text lines IH]; simpl; [by intros ?%elem_of_nil|].
  destruct (OpenAI.readLine JSON_parse text) as [| |d] eqn:E; [done|by intros ?%elem_of_nil|].
  destruct (OpenAI.readLines JSON_parse lines) as [vs done']. simpl in *.
  intros [->|Hin]%elem_of_cons; [by apply (readLine_delta_truthy text)|by apply IH].
Qed.

End Stream.

(** X11.  The upstream stream is read by lines, whatever its chunks.
    The values [streamOpenAI] hands to [onToken] are those of the
    complete lines of the whole text received, read in order up to the
    first [[DONE]]; so two bodies that carry the same text cut into
    chunks at different places give the same values and the same
    outcome.  Text after the last line feed is never read: a body ending
    in a line that is not terminated loses that line. *)
Theorem stream_is_read_by_lines (parse : jsstring → option json) pieces breaks :
  (OpenAI.streamOpenAI parse (OpenAI.Streams pieces breaks)
   = let '(vs, done) := OpenAI.readLines parse (completeLines (concat pieces)) in
     (vs, done || negb breaks))
  ∧ (∀ pieces', concat pieces' = concat pieces →
       OpenAI.streamOpenAI parse (OpenAI.Streams pieces' breaks)
       = OpenAI.streamOpenAI parse (OpenAI.Streams pieces breaks))
  ∧ (∀ tail, newline ∉ tail →
       OpenAI.streamOpenAI parse (OpenAI.Streams (pieces ++ [tail]) breaks)
       = OpenAI.streamOpenAI parse (OpenAI.Streams pieces breaks)).
Proof.
  assert (Hlines : ∀ ps,
    OpenAI.streamOpenAI parse (OpenAI.Streams ps breaks)
    = let '(vs, done) := OpenAI.readLines parse (completeLines (concat ps)) in
      (vs, done || negb breaks)).
  { intros ps. unfold OpenAI.streamOpenAI.
    by rewrite readChunks_lines by apply not_elem_of_nil. }
  split; [apply Hlines|]. split.
  - intros pieces' E. by rewrite !Hlines, E.
  - intros tail Hnot. rewrite !Hlines, concat_app. simpl.
    by rewrite app_nil_r, completeLines_tail.
Qed.

(** X12.  [[DONE]] ends the reading.  When a complete line of the text
    received reads [[DONE]], [streamOpenAI] returns, even when the body
    breaks afterwards, having handed over the values of the lines before
    it and none of a later line. *)
Theorem done_line_ends_the_stream (parse : jsstring → option json)
    pieces breaks before text after :
  completeLines (concat pieces) = before ++ text :: after →
  OpenAI.readLine parse text = OpenAI.Done →
  OpenAI.streamOpenAI parse (OpenAI.Streams pieces breaks)
  = ((OpenAI.readLines parse before).1, true).
Proof.
  intros Hlines Hdone. unfold OpenAI.streamOpenAI.
  rewrite readChunks_lines by apply not_elem_of_nil. simpl.
  rewrite Hlines, readLines_app. simpl. rewrite Hdone.
  destruct (OpenAI.readLines parse before) as [vs [|]]; simpl; [done|].
  by rewrite app_nil_r.
Qed.

(** X13.  What reaches [onToken].  Every value [streamOpenAI] hands to
    [onToken] is truthy: never an empty string, [null], [false] or 0.
    When [fetch] rejects, or the response is not [ok] or has no body,
    nothing is handed over and the function throws; when the body ends
    without breaking, the function returns. *)
Theorem only_truthy_deltas_reach_onToken (parse : jsstring → option json) upstream :
  (∀ v, v ∈ (OpenAI.streamOpenAI parse upstream).1 → truthy (Some v) = true)
  ∧ (match upstream with
     | OpenAI.FetchRejects | OpenAI.Refused _ _ =>
         OpenAI.streamOpenAI parse upstream = ([], false)
     | OpenAI.Streams pieces breaks =>
         breaks = false → (OpenAI.streamOpenAI parse upstream).2 = true
     end).
Proof.
  split.
  - intros v. destruct upstream as [| |pieces breaks]; simpl;
      try by intros ?%elem_of_nil.
    rewrite readChunks_lines by apply not_elem_of_nil. simpl.
    destruct (OpenAI.readLines parse (completeLines (concat pieces))) as [vs done'] eqn:E.
    simpl. intros Hin. apply (readLines_truthy parse (completeLines (concat pieces))).
    by rewrite E.
  - destruct upstream as [| |pieces breaks]; try done.
    intros ->. simpl. destruct (OpenAI.readChunks parse pieces []) as [vs done'].
    simpl. by rewrite orb_true_r.
Qed.

(** ** Trimming *)

Lemma last_rev {A : Type} (l : list A) : last (rev l) = head l.
Proof. rewrite rev_alt. apply last_reverse. Qed.

Lemma head_rev {A : Type} (l : list A) : head (rev l) = last l.
Proof. rewrite rev_alt. apply head_reverse. Qed.

Lemma trimStart_head s c : head (trimStart s) = Some c → isWhiteSpace c = false.
Proof.
  induction s as [|d r IH]; simpl; [done|].
  destruct (isWhiteSpace d) eqn:E; [exact IH|]. simpl. by intros [= <-].
Qed.

Lemma trimStart_fixed s :
  (∀ c, head s = Some c → isWhiteSpace c = false) → trimStart s = s.
Proof. destruct s as [|d r]; simpl; [done|]. intros Hh. by rewrite Hh. Qed.

Lemma trimStart_suffix s : ∃ p, s = p ++ trimStart s ∧ blank p.
Proof.
  induction s as [|d r (p & E & Hp)]; simpl.
  - exists []. split; [done|]. by intros c ?%elem_of_nil.
  - destruct (isWhiteSpace d) eqn:Hd.
    + exists (d :: p). split; [by rewrite E at 1|].
      intros c [->|Hin]%elem_of_cons; [done|by apply Hp].
    + exists []. split; [done|]. by intros c ?%elem_of_nil.
Qed.

Lemma trimStart_blank s : blank s → trimStart s = [].
Proof.
  induction s as [|d r IH]; [done|]. intros Hb. simpl.
  rewrite (Hb d) by apply list_elem_of_here. apply IH.
  intros c Hin. apply Hb. by apply list_elem_of_further.
Qed.

Lemma trimEnd_prefix s : ∃ p, s = trimEnd s ++ p.
Proof.
  unfold trimEnd. destruct (trimStart_suffix (rev s)) as (p & E & _).
  exists (rev p). rewrite <- rev_app_distr, <- E. by rewrite rev_involutive.
Qed.

Lemma trimEnd_last s c : last (trimEnd s) = Some c → isWhiteSpace c = false.
Proof.
  unfold trimEnd. rewrite last_rev. apply trimStart_head.
Qed.

Lemma trim_trimmed s : trimmed (trim s).
Proof.
  unfold trim. split; [|apply trimEnd_last].
  intros c Hc. destruct (trimEnd_prefix (trimStart s)) as (p & E).
  apply (trimStart_head s). rewrite E.
  destruct (trimEnd (trimStart s)); [done|exact Hc].
Qed.

Lemma trimmed_fixed s : trimmed s → trim s = s.
Proof.
  intros [Hh Hl]. unfold trim, trimEnd. rewrite (trimStart_fixed s Hh).
  rewrite trimStart_fixed; [apply rev_involutive|].
  intros c. rewrite head_rev. apply Hl.
Qed.

Lemma trim_elements s c : c ∈ trim s → c ∈ s.
Proof.
  intros Hin. destruct (trimStart_suffix s) as (p & E & _).
  destruct (trimEnd_prefix (trimStart s)) as (q & F).
  rewrite E, F. apply elem_of_app. right. apply elem_of_app. by left.
Qed.

Lemma trim_blank s : blank s → trim s = [].
Proof. intros Hb. unfold trim. by rewrite trimStart_blank. Qed.

Lemma firstAddress_no_comma s : comma ∉ firstAddress s.
Proof.
  induction s as [|c r IH]; simpl; [apply not_elem_of_nil|].
  destruct (N.eqb_spec c comma); [apply not_elem_of_nil|].
  apply not_elem_of_cons. split; [congruence|done].
Qed.

(** X14.  The key of a client taken from a header is normal: the one
    from [X-Forwarded-For] holds no comma and has no white space at
    either end, and trimming it again changes nothing; the same holds of
    the one from [X-Real-IP], but for the commas.  A forwarded header
    whose first field is blank gives the empty key, whatever the
    [X-Real-IP] header and the address of the socket are. *)
Theorem header_keys_are_normal req :
  (∀ forwarded, headers req !! "x-forwarded-for" = Some (HdrString forwarded) →
     (comma ∉ getClientIP req)
     ∧ trimmed (getClientIP req)
     ∧ trim (getClientIP req) = getClientIP req
     ∧ (blank (firstAddress forwarded) → getClientIP req = []))
  ∧ (∀ realIp, headerString req "x-forwarded-for" = None →
     headers req !! "x-real-ip" = Some (HdrString realIp) →
     trimmed (getClientIP req)
     ∧ trim (getClientIP req) = getClientIP req).
Proof.
  split.
  - intros forwarded Hf. unfold getClientIP. rewrite Hf, split_first.
    split; [|split; [|split]].
    + intros Hin. by apply trim_elements, firstAddress_no_comma in Hin.
    + apply trim_trimmed.
    + apply trimmed_fixed, trim_trimmed.
    + apply trim_blank.
  - intros realIp Hno Hr. unfold getClientIP. unfold headerString in Hno.
    destruct (headers req !! "x-forwarded-for") as [[f|l]|]; [done| |];
      rewrite Hr; (split; [apply trim_trimmed|apply trimmed_fixed, trim_trimmed]).
Qed.

(** X15.  The forwarded header chooses the record.  A [POST /chat]
    request whose [X-Forwarded-For] names, as its first address, a client
    with no live record is let through, whatever the limit is and
    whatever record the address of its socket or its [X-Real-IP] has;
    those records are not counted against. *)
Theorem forwarded_header_chooses_the_record `{Config} `{Platform}
    now now' req store forwarded :
  isChat req = true →
  headers req !! "x-forwarded-for" = Some (HdrString forwarded) →
  fresh now (trim (firstAddress forwarded)) store →
  let out := serve now now' req store in
  RateCheck.allowed (checkRateLimit now (getClientIP req) store).1 = true
  ∧ status out ≠ Some 429
  ∧ rateLimitStore out.2 !! trim (firstAddress forwarded)
    = Some {| count := 1; resetAt := now + RATE_WINDOW_MS |}
  ∧ ∀ ip, ip ≠ trim (firstAddress forwarded) → rateLimitStore out.2 !! ip = store !! ip.
Proof.
  intros Hchat Hf Hfresh out.
  assert (Hip : getClientIP req = trim (firstAddress forwarded))
    by (unfold getClientIP; by rewrite Hf, split_first).
  unfold out. rewrite serve_store, Hchat, serve_chat by done. simpl.
  rewrite Hip, (checkRateLimit_fresh _ _ _ Hfresh). simpl.
  split; [done|]. split; [|split].
  - destruct (handleChat_status req
                {| RateCheck.allowed := true; RateCheck.remaining := RATE_LIMIT - 1;
                   RateCheck.resetAt := now + RATE_WINDOW_MS |}
                (<[trim (firstAddress forwarded) :=
                     {| count := 1; resetAt := now + RATE_WINDOW_MS |}]> store))
      as [E|[E|[E|E]]]; simpl in E; rewrite E; discriminate.
  - by rewrite lookup_insert_eq.
  - intros ip Hne. by rewrite lookup_insert_ne.
Qed.

(** ** The prompt *)

Lemma join_cons_length sep x xs :
  (length (join sep (x :: xs)) ≤ length x + length sep + length (join sep xs))%nat.
Proof. destruct xs; simpl; rewrite ?length_app; lia. Qed.

Lemma excerpt_length result :
  (length (excerpt result)
   ≤ length (Rag.title (Rag.chunk result)) + length (Rag.url (Rag.chunk result))
     + 5 + 1200)%nat.
Proof.
  unfold excerpt. rewrite !length_app.
  assert (Ht : (length (take 1200 (Rag.content (Rag.chunk result))) ≤ 1200)%nat)
    by (rewrite length_take; apply Nat.le_min_l).
  revert Ht. generalize (length (take 1200 (Rag.content (Rag.chunk result)))).
  intros n Hn. simpl. lia.
Qed.

(** X16.  The prompt takes no more than 1200 code units of the content
    of a chunk: an excerpt is the title, the address and at most the
    first 1200 code units of the content, so two sequences of results
    that agree on titles, addresses and the first 1200 code units of
    every content give the same system prompt, and the length of the
    prompt is bounded by the titles and addresses alone. *)
Theorem prompt_takes_1200_units_of_a_chunk (results results' : list Rag.SearchResult) :
  (Forall2 (λ r r',
      Rag.title (Rag.chunk r) = Rag.title (Rag.chunk r')
      ∧ Rag.url (Rag.chunk r) = Rag.url (Rag.chunk r')
      ∧ take 1200 (Rag.content (Rag.chunk r)) = take 1200 (Rag.content (Rag.chunk r')))
     results results' →
   systemPromptFor results = systemPromptFor results')
  ∧ (length (systemPromptFor results)
     ≤ 254 + sum_list ((λ r, length (Rag.title (Rag.chunk r))
                             + length (Rag.url (Rag.chunk r)) + 1212) <$> results))%nat.
Proof.
  split.
  - intros Hall. unfold systemPromptFor.
    assert (E : excerpt <$> results = excerpt <$> results').
    { induction Hall as [|r r' rs rs' (Ht & Hu & Hc) _ IH]; [done|].
      rewrite !fmap_cons, IH. unfold excerpt. by rewrite Ht, Hu, Hc. }
    by rewrite E.
  - assert (Hjoin : ∀ sep rs,
      (length (join sep (excerpt <$> rs))
       ≤ sum_list ((λ r, length (Rag.title (Rag.chunk r))
                         + length (Rag.url (Rag.chunk r)) + 1205 + length sep) <$> rs))%nat).
    { intros sep rs. induction rs as [|r rs IH]; [simpl; lia|].
      rewrite !fmap_cons. pose proof (excerpt_length r).
      pose proof (join_cons_length sep (excerpt r) (excerpt <$> rs)).
      cbn [sum_list sum_list_with] in *. unfold id in *. lia. }
    specialize (Hjoin ([newline; newline] ++ js "---" ++ [newline; newline]) results).
    change (length ([newline; newline] ++ js "---" ++ [newline; newline]))
      with 7%nat in Hjoin.
    assert (Hlen : length (systemPromptFor results)
                   = (254 + length (join ([newline; newline] ++ js "---"
                                          ++ [newline; newline])
                                      (excerpt <$> results)))%nat).
    { unfold systemPromptFor. rewrite !length_app. reflexivity. }
    rewrite Hlen.
    assert (Hsum : ∀ rs : list Rag.SearchResult,
      (sum_list ((λ r, length (Rag.title (Rag.chunk r))
                       + length (Rag.url (Rag.chunk r)) + 1205 + 7) <$> rs)
       = sum_list ((λ r, length (Rag.title (Rag.chunk r))
                         + length (Rag.url (Rag.chunk r)) + 1212) <$> rs))%nat).
    { intros rs. induction rs as [|r rs IH]; [done|].
      rewrite !fmap_cons. cbn [sum_list sum_list_with]. rewrite IH. unfold id. lia. }
    rewrite <- Hsum. lia.
Qed.

(** ** The store factory *)

(** X17.  [createStore] follows the mode.  The mode it returns is the
    one asked for, or the one detected when none is asked for, and names
    the backend constructed: the cloud store for [upstash], the local
    store with the path given (the default path when none is given) and
    the dimension 3072 for [lancedb].  With a mode given the environment
    is not looked at; with none given and no path, the cloud store is
    constructed exactly when both cloud variables are set to non-empty
    values. *)
Theorem createStore_follows_the_mode (root : list string) mode path (env : Env) :
  let out := StoreFactory.createStore root mode path env in
  out.2 = default (StoreFactory.detectStoreMode env) mode
  ∧ (out.2 = StoreFactory.upstash ↔ out.1 = UpstashDocsStore)
  ∧ (out.2 = StoreFactory.lancedb
     ↔ out.1 = LanceDocsStore
                 (default (StoreFactory.DEFAULT_LANCEDB_PATH root) path) 3072)
  ∧ (is_Some mode → ∀ env' : Env, StoreFactory.createStore root mode path env' = out)
  ∧ (mode = None →
     (out.1 = UpstashDocsStore
      ↔ nonEmpty env "UPSTASH_VECTOR_REST_URL"
        ∧ nonEmpty env "UPSTASH_VECTOR_REST_TOKEN")).
Proof.
  intros out. unfold out, StoreFactory.createStore.
  split; [|split; [|split; [|split]]].
  - by destruct (default _ mode).
  - by destruct (default _ mode).
  - by destruct (default _ mode).
  - by intros [m ->] env'.
  - intros ->. simpl. rewrite <- !isSet_nonEmpty.
    unfold StoreFactory.detectStoreMode, js_and.
    destruct (isSet (env !! "UPSTASH_VECTOR_REST_URL")) eqn:Eurl;
      [destruct (isSet (env !! "UPSTASH_VECTOR_REST_TOKEN")) eqn:Etok|rewrite Eurl];
      simpl; intuition congruence.
Qed.


(** * The further properties on worked instances *)



Lemma clients_are_isolated_witness :
  let plat := demoPlatform (Some []) in
  let req := post {[ "x-real-ip" := HdrString (js "10.1.1.1") ]} [] in
  spent !! getClientIP req = (∅ : gmap jsstring RateRecord) !! getClientIP req
  ∧ observed (@serve (limit 1) plat 2000 2000 req spent)
    = observed (@serve (limit 1) plat 2000 2000 req ∅).
Proof.
  intros plat req.
  assert (H1 : spent !! getClientIP req = (∅ : gmap jsstring RateRecord) !! getClientIP req)
    by reflexivity.
  split; [exact H1|].
  exact (proj2 (@clients_are_isolated (limit 1) plat 2000 2000 req spent) ∅ H1).
Defined.

Lemma sweep_is_unobservable_witness :
  let plat := demoPlatform (Some []) in
  let history :=
    [Incoming 1000 1000 (post ∅ []); Sweep 70000; Incoming 80000 80000 (post ∅ []);
     Sweep 80000; Incoming 80001 80001 (post ∅ [])] in
  ordered 0 history
  ∧ @responses (limit 1) plat history ∅
    = @responses (limit 1) plat (filter isRequest history) ∅.
Proof.
  intros plat history.
  assert (H1 : ordered 0 history) by (simpl; lia).
  split; [exact H1|].
  exact (proj2 (@sweep_is_unobservable (limit 1) plat 0 ∅) 0 history H1).
Defined.

Lemma listener_routes_witness :
  let req :=
    {| method := "OPTIONS"; url := "/chat"; headers := ∅;
       remoteAddress := Some (js "127.0.0.1"); chunks := [] |} in
  method req = "OPTIONS"
  ∧ status (@serve (limit 1) (demoPlatform (Some [])) 2000 2000 req spent) = Some 204.
Proof.
  intros req.
  assert (H1 : method req = "OPTIONS") by reflexivity.
  split; [exact H1|].
  exact (proj2 (proj1 (@listener_routes (limit 1) (demoPlatform (Some []))
                         2000 2000 req spent)) H1).
Defined.

Lemma every_response_has_cors_headers_witness :
  let req :=
    {| method := "GET"; url := "/chat"; headers := ∅;
       remoteAddress := Some (js "127.0.0.1"); chunks := [] |} in
  let out := @serve (limit 1) (demoPlatform (Some [])) 2000 2000 req ∅ in
  ∃ hs, res_head (res out.2) = Some (404, hs)
        ∧ hs !! "Access-Control-Allow-Origin" = Some (HStr "*").
Proof.
  intros req out.
  destruct (res_head (res out.2)) as [[st hs]|] eqn:E; [|vm_compute in E; discriminate].
  assert (st = 404) as -> by (vm_compute in E; congruence).
  exists hs. split; [reflexivity|].
  exact (proj1 (@every_response_has_cors_headers (limit 1) (demoPlatform (Some []))
                  2000 2000 req ∅ 404 hs E)).
Defined.

Lemma bad_request_error_text_witness :
  let plat := demoPlatform (Some []) in
  let req := post ∅ [bytes "null"] in
  bodyBytes req ≤ MAX_BODY_SIZE
  ∧ @badRequest plat (parsedText (@bodyText plat req))
  ∧ @handleChat plat req idle =
      (Fulfilled (),
       errorReply 400 (js "Invalid JSON")
         (logged [ReadChunk (bytes "null"); ParseJson (js "null")] idle)).
Proof.
  intros plat req.
  assert (H1 : bodyBytes req ≤ MAX_BODY_SIZE) by (vm_compute; discriminate).
  assert (H2 : @badRequest plat (parsedText (@bodyText plat req))) by (vm_compute; exact I).
  split; [exact H1|]. split; [exact H2|].
  rewrite (@bad_request_error_text plat req idle H1 H2). reflexivity.
Defined.

Lemma excerpts_are_streamed_witness :
  let plat := demoPlatform (Some [gatewayDoc]) in
  let m := js "How do I configure the gateway?" in
  bodyBytes askGateway ≤ MAX_BODY_SIZE
  ∧ @validRequest plat (parsedText (@bodyText plat askGateway)) m
  ∧ @retriever_retrieve plat m 8 = Some [gatewayDoc]
  ∧ [gatewayDoc] ≠ []
  ∧ @streamOpenAI plat (systemPromptFor [gatewayDoc]) m
    = ([js "Use "; js "the gateway."], true)
  ∧ status (@handleChat plat askGateway idle) = Some 200
  ∧ res_body (res (@handleChat plat askGateway idle).2)
    = [Text (js "Use "); Text (js "the gateway.")].
Proof.
  intros plat m.
  assert (H1 : bodyBytes askGateway ≤ MAX_BODY_SIZE) by (vm_compute; discriminate).
  assert (H2 : @validRequest plat (parsedText (@bodyText plat askGateway)) m).
  { eexists _, _. split; [vm_compute; reflexivity|].
    split; [vm_compute; reflexivity|]. split; [vm_compute; reflexivity|].
    vm_compute. split; discriminate. }
  assert (H3 : @retriever_retrieve plat m 8 = Some [gatewayDoc]) by reflexivity.
  assert (H4 : [gatewayDoc] ≠ []) by discriminate.
  assert (H5 : @streamOpenAI plat (systemPromptFor [gatewayDoc]) m
               = ([js "Use "; js "the gateway."], true)) by reflexivity.
  repeat (split; [assumption|]).
  rewrite (@excerpts_are_streamed plat askGateway m [gatewayDoc]
             [js "Use "; js "the gateway."] true idle H1 H2 H3 H4 H5).
  split; reflexivity.
Defined.

Lemma platform_calls_in_order_witness :
  let plat := demoPlatform (Some []) in
  isChat askGateway = true
  ∧ RateCheck.allowed (@checkRateLimit (limit 1) 2000 (getClientIP askGateway) spent).1
    = false
  ∧ calls (@serve (limit 1) plat 2000 2000 askGateway spent).2 = [].
Proof.
  intros plat.
  assert (H1 : isChat askGateway = true) by reflexivity.
  assert (H2 : RateCheck.allowed
                 (@checkRateLimit (limit 1) 2000 (getClientIP askGateway) spent).1
               = false) by reflexivity.
  split; [exact H1|]. split; [exact H2|].
  exact (proj1 (@platform_calls_in_order (limit 1) plat 2000 2000 askGateway spent) H1 H2).
Defined.

Lemma listener_fails_only_with_its_stores_witness :
  let plat := demoPlatform None in
  let m := js "How do I configure the gateway?" in
  let out := @serve (limit 1) plat 2000 2000 askGateway ∅ in
  isChat askGateway = true
  ∧ RateCheck.allowed (@checkRateLimit (limit 1) 2000 (getClientIP askGateway) ∅).1 = true
  ∧ bodyBytes askGateway ≤ MAX_BODY_SIZE
  ∧ @validRequest plat (parsedText (@bodyText plat askGateway)) m
  ∧ @retriever_retrieve plat m 8 = None
  ∧ out.1 = Rejected
  ∧ res_head (res out.2) = None.
Proof.
  intros plat m out.
  assert (H1 : isChat askGateway = true) by reflexivity.
  assert (H2 : RateCheck.allowed
                 (@checkRateLimit (limit 1) 2000 (getClientIP askGateway) ∅).1 = true)
    by reflexivity.
  assert (H3 : bodyBytes askGateway ≤ MAX_BODY_SIZE) by (vm_compute; discriminate).
  assert (H4 : @validRequest plat (parsedText (@bodyText plat askGateway)) m).
  { eexists _, _. split; [vm_compute; reflexivity|].
    split; [vm_compute; reflexivity|]. split; [vm_compute; reflexivity|].
    vm_compute. split; discriminate. }
  assert (H5 : @retriever_retrieve plat m 8 = None) by reflexivity.
  repeat (split; [assumption|]).
  destruct (@listener_fails_only_with_its_stores (limit 1) plat 2000 2000 askGateway ∅)
    as (Hiff & Hnothing & _).
  assert (H6 : out.1 = Rejected).
  { apply Hiff. right. repeat split; try assumption. by exists m. }
  split; [exact H6|]. exact (proj1 (Hnothing H6)).
Defined.

Lemma stream_is_read_by_lines_witness :
  let pieces := [streamHead; streamRest] in
  let whole := [streamHead ++ streamRest] in
  concat whole = concat pieces
  ∧ OpenAI.streamOpenAI JsonText.parse (OpenAI.Streams whole true)
    = OpenAI.streamOpenAI JsonText.parse (OpenAI.Streams pieces true)
  ∧ OpenAI.streamOpenAI JsonText.parse (OpenAI.Streams pieces true)
    = ([JStr (js "Hel"); JStr (js "lo")], true).
Proof.
  intros pieces whole.
  assert (H1 : concat whole = concat pieces) by (vm_compute; reflexivity).
  split; [exact H1|]. split; [|vm_compute; reflexivity].
  exact (proj1 (proj2 (stream_is_read_by_lines JsonText.parse pieces true)) whole H1).
Defined.

Lemma done_line_ends_the_stream_witness :
  let pieces := [streamHead; streamRest] in
  let before := [deltaLine "Hel"; deltaLine "lo"; []; js ": ping";
                 jsq "data: {'choices':[{'delta':{}}]}"] in
  completeLines (concat pieces) = before ++ js "data: [DONE]" :: [deltaLine "late"]
  ∧ OpenAI.readLine JsonText.parse (js "data: [DONE]") = OpenAI.Done
  ∧ OpenAI.streamOpenAI JsonText.parse (OpenAI.Streams pieces true)
    = ((OpenAI.readLines JsonText.parse before).1, true).
Proof.
  intros pieces before.
  assert (H1 : completeLines (concat pieces)
               = before ++ js "data: [DONE]" :: [deltaLine "late"])
    by (vm_compute; reflexivity).
  assert (H2 : OpenAI.readLine JsonText.parse (js "data: [DONE]") = OpenAI.Done)
    by reflexivity.
  split; [exact H1|]. split; [exact H2|].
  exact (done_line_ends_the_stream JsonText.parse pieces true before
           (js "data: [DONE]") [deltaLine "late"] H1 H2).
Defined.

Lemma only_truthy_deltas_reach_onToken_witness :
  let upstream := OpenAI.Streams [streamHead; streamRest] false in
  JStr (js "lo") ∈ (OpenAI.streamOpenAI JsonText.parse upstream).1
  ∧ truthy (Some (JStr (js "lo"))) = true.
Proof.
  intros upstream.
  assert (H1 : JStr (js "lo") ∈ (OpenAI.streamOpenAI JsonText.parse upstream).1).
  { vm_compute. apply list_elem_of_further, list_elem_of_here. }
  split; [exact H1|].
  exact (proj1 (only_truthy_deltas_reach_onToken JsonText.parse upstream) _ H1).
Defined.

Lemma header_keys_are_normal_witness :
  let req := post {[ "x-forwarded-for" := HdrString (js " 203.0.113.7 , 10.0.0.1") ]} [] in
  headers req !! "x-forwarded-for" = Some (HdrString (js " 203.0.113.7 , 10.0.0.1"))
  ∧ (comma ∉ getClientIP req)
  ∧ trim (getClientIP req) = getClientIP req.
Proof.
  intros req.
  assert (H1 : headers req !! "x-forwarded-for"
               = Some (HdrString (js " 203.0.113.7 , 10.0.0.1"))) by reflexivity.
  split; [exact H1|].
  destruct (proj1 (header_keys_are_normal req) _ H1) as (Hc & _ & Ht & _).
  split; [exact Hc|exact Ht].
Defined.

Lemma forwarded_header_chooses_the_record_witness :
  let plat := demoPlatform (Some []) in
  let req := post {[ "x-forwarded-for" := HdrString (js "198.51.100.9") ]} [] in
  isChat req = true
  ∧ headers req !! "x-forwarded-for" = Some (HdrString (js "198.51.100.9"))
  ∧ fresh 2000 (trim (firstAddress (js "198.51.100.9"))) spent
  ∧ remoteAddress req = Some (js "127.0.0.1")
  ∧ RateCheck.allowed (@checkRateLimit (limit 1) 2000 (js "127.0.0.1") spent).1 = false
  ∧ status (@serve (limit 1) plat 2000 2000 req spent) ≠ Some 429.
Proof.
  intros plat req.
  assert (H1 : isChat req = true) by reflexivity.
  assert (H2 : headers req !! "x-forwarded-for" = Some (HdrString (js "198.51.100.9")))
    by reflexivity.
  assert (H3 : fresh 2000 (trim (firstAddress (js "198.51.100.9"))) spent)
    by (vm_compute; exact I).
  repeat (split; [first [assumption|reflexivity]|]).
  exact (proj1 (proj2 (@forwarded_header_chooses_the_record (limit 1) plat 2000 2000
                         req spent (js "198.51.100.9") H1 H2 H3))).
Defined.

Lemma prompt_takes_1200_units_of_a_chunk_witness :
  Forall2 (λ r r',
      Rag.title (Rag.chunk r) = Rag.title (Rag.chunk r')
      ∧ Rag.url (Rag.chunk r) = Rag.url (Rag.chunk r')
      ∧ take 1200 (Rag.content (Rag.chunk r)) = take 1200 (Rag.content (Rag.chunk r')))
    [longDoc "one ending"] [longDoc "another"]
  ∧ Rag.content (Rag.chunk (longDoc "one ending"))
    ≠ Rag.content (Rag.chunk (longDoc "another"))
  ∧ systemPromptFor [longDoc "one ending"] = systemPromptFor [longDoc "another"].
Proof.
  assert (H1 : Forall2 (λ r r',
      Rag.title (Rag.chunk r) = Rag.title (Rag.chunk r')
      ∧ Rag.url (Rag.chunk r) = Rag.url (Rag.chunk r')
      ∧ take 1200 (Rag.content (Rag.chunk r)) = take 1200 (Rag.content (Rag.chunk r')))
    [longDoc "one ending"] [longDoc "another"]).
  { repeat constructor. }
  split; [exact H1|]. split.
  - vm_compute. discriminate.
  - exact (proj1 (prompt_takes_1200_units_of_a_chunk _ _) H1).
Defined.

Lemma createStore_follows_the_mode_witness :
  let env : Env :=
    {[ "UPSTASH_VECTOR_REST_URL" := "https://example.upstash.io";
       "UPSTASH_VECTOR_REST_TOKEN" := "token" ]} in
  let mode := Some StoreFactory.lancedb in
  is_Some mode
  ∧ StoreFactory.detectStoreMode env = StoreFactory.upstash
  ∧ StoreFactory.createStore ["srv"; "docs-chat"] mode (Some "/var/db") ∅
    = StoreFactory.createStore ["srv"; "docs-chat"] mode (Some "/var/db") env
  ∧ (StoreFactory.createStore ["srv"; "docs-chat"] mode (Some "/var/db") env).1
    = LanceDocsStore "/var/db" 3072.
Proof.
  intros env mode.
  assert (H1 : is_Some mode) by (by eexists).
  split; [exact H1|]. split; [reflexivity|].
  destruct (createStore_follows_the_mode ["srv"; "docs-chat"] mode (Some "/var/db") env)
    as (_ & _ & _ & Henv & _).
  split; [exact (Henv H1 ∅)|reflexivity].
Defined.
